(** * The flat name registry of blueprint: [SimpleNameInterface]

    A shallow embedding of [name_interface.go] and a verification of its
    registration, renaming, enumeration and diagnostic operations.

    Go values are embedded as follows.
    - A [ModuleGroup] is a struct around a [*moduleGroup] pointer; the records
      pointed to live in a heap ([gmap loc moduleGroup]) that the registry
      shares with its callers, so that the in-place update of [Rename] is
      seen through every copy of the handle.
    - The two Go maps of the registry are [gmap]s keyed by strings.
    - A Go panic (nil dereference, index out of range, explicit [panic]) is
      the [Panicked] outcome of the [result] type.
    - [[]error] is a list of error texts; a nil slice and an empty slice are
      both the empty list. *)

From stdpp Require Import base option list strings gmap fin_maps sorting.

(** ** Outcomes of possibly panicking code *)

Inductive panic : Type :=
| NilPointerDereference
| IndexOutOfRange
| PanicMsg (msg : string).

Inductive result (A : Type) : Type :=
| Return (a : A)
| Panicked (p : panic).

Arguments Return {A} a.
Arguments Panicked {A} p.

Definition bind {A B : Type} (r : result A) (k : A → result B) : result B :=
  match r with
  | Return a => k a
  | Panicked p => Panicked p
  end.

Notation "'let!' x ':=' r 'in' k" := (bind r (λ x, k))
  (at level 10, x pattern, r at level 100, k at level 200).

(** ** Strings *)

(** The line feed of the two-line messages. *)
Definition nl : string := String (Ascii.ascii_of_nat 10) EmptyString.

(** [strings.Join]. *)
Fixpoint Join (elems : list string) (sep : string) : string :=
  match elems with
  | [] => ""
  | [x] => x
  | x :: rest => x +:+ sep +:+ Join rest sep
  end.

(** [sub] occurs in [text]. *)
Definition mentions (sub text : string) : Prop :=
  ∃ before after, text = before +:+ sub +:+ after.

(** Go compares strings byte by byte; [String.ltb] is that order on the
    bytes of a [string]. *)
Definition name_lt (a b : string) : Prop := String.ltb a b = true.

(** A plain quoting, adequate for names without special characters; the
    examples instantiate [%q] with it. *)
Definition plain_quote (s : string) : string :=
  String (Ascii.ascii_of_nat 34) EmptyString +:+ s +:+ String (Ascii.ascii_of_nat 34) EmptyString.

(** ** Data model *)

Definition loc : Type := positive.

(** The embedded [*moduleGroup]; [None] is the nil pointer. *)
Record ModuleGroup : Type := mkModuleGroup { moduleGroup_ptr : option loc }.

Global Instance ModuleGroup_eq_dec : EqDecision ModuleGroup.
Proof. solve_decision. Defined.

Inductive NamespaceMarker : Type := mkNamespaceMarker.

(** A value of the [Namespace] interface; [None] is the nil interface. *)
Definition Namespace : Type := option NamespaceMarker.

Record NamespaceContext : Type := namespaceContextImpl { ModulePath : string }.

Record SkippedModuleInfo : Type := mkSkippedModuleInfo {
  filename : string;
  reason : string
}.

Definition error : Type := string.

Section Registry.

(** The position type of a module ([text/scanner.Position]) with its
    [String] method, the quoting of [%q] ([strconv.Quote]) and the type of
    the opaque module values are library or caller matters: the development
    holds for every choice of them. *)
Variable Position : Type.
Variable Position_String : Position → string.
Variable Quote : string → string.
Variable Module_ : Type.

(** Modelled from the spec: the types [moduleInfo] and [moduleGroup] and the
    method [firstModule] are declared in a file of the package that is not
    part of the sources at hand. A group owns a mutable name and an ordered,
    non-empty collection of module variants whose first-inserted element can
    be retrieved; of a module only its position is read here. *)
Record moduleInfo : Type := mkModuleInfo { pos : Position }.

(** Modelled from the spec: the collection type of the field [modules] of a
    group, with its method [firstModule], is missing as well; the collection
    is ordered and never empty, so its first module is a field. *)
Record moduleList : Type := mkModuleList {
  firstModule : moduleInfo;
  otherModules : list moduleInfo
}.

(** Modelled from the spec: the struct [moduleGroup], of which the registry
    reads and writes the field [name] and reads the field [modules]
    ([group_modules] here, the registry having a field [modules] of its
    own). *)
Record moduleGroup : Type := mkModuleGroupRecord {
  name : string;
  group_modules : moduleList
}.

Record SimpleNameInterface : Type := mkSimpleNameInterface {
  modules : gmap string ModuleGroup;
  skippedModules : gmap string (list SkippedModuleInfo)
}.

(** The registry together with the heap of group records it points into. *)
Record World : Type := mkWorld {
  heap : gmap loc moduleGroup;
  registry : SimpleNameInterface
}.

(** Dereferencing the pointer inside a handle. *)
Definition deref (h : gmap loc moduleGroup) (g : ModuleGroup) : option moduleGroup :=
  match moduleGroup_ptr g with
  | Some l => h !! l
  | None => None
  end.

(** [group.field]: a nil pointer panics. *)
Definition load (h : gmap loc moduleGroup) (g : ModuleGroup) : result moduleGroup :=
  match deref h g with
  | Some mg => Return mg
  | None => Panicked NilPointerDereference
  end.

(** [group.name = newName] through the pointer. *)
Definition store_name (h : gmap loc moduleGroup) (g : ModuleGroup) (newName : string)
  : result (gmap loc moduleGroup) :=
  match moduleGroup_ptr g with
  | Some l =>
      match h !! l with
      | Some mg => Return (<[l := mkModuleGroupRecord newName (group_modules mg)]> h)
      | None => Panicked NilPointerDereference
      end
  | None => Panicked NilPointerDereference
  end.

(** ** Formatted texts *)

(** [%q] applied to a slice of strings. *)
Definition Quote_list (l : list string) : string :=
  "[" +:+ Join (Quote <$> l) " " +:+ "]".

Definition already_defined_text (n : string) (p : Position) : error :=
  "module " +:+ Quote n +:+ " already defined" +:+ nl +:+
  "       " +:+ Position_String p +:+ " <-- previous definition here".

Definition rename_conflict_text (oldName newName : string) (p : Position) : error :=
  "renaming module " +:+ Quote oldName +:+ " to " +:+ Quote newName +:+
  " conflicts with existing module" +:+ nl +:+
  "       " +:+ Position_String p +:+ " <-- existing module defined here".

Definition rename_missing_text (oldName newName : string) : error :=
  "module " +:+ Quote oldName +:+ " to renamed to " +:+ Quote newName +:+ " doesn't exist".

Definition skipped_text (depender dependency : string) (filesFound reasons : list string) : error :=
  "module " +:+ Quote depender +:+ " depends on skipped module " +:+ Quote dependency +:+
  "; " +:+ Quote dependency +:+ " was defined in files(s) [" +:+ Join filesFound ", " +:+
  "], but was skipped for reason(s) [" +:+ Join reasons "; " +:+ "]".

Definition guessString (guess : list string) : string :=
  match guess with
  | [] => ""
  | _ :: _ => " Did you mean " +:+ Quote_list guess +:+ "?"
  end.

Definition undefined_text (depender dependency : string) (guess : list string) : error :=
  Quote depender +:+ " depends on undefined module " +:+ Quote dependency +:+ "." +:+
  guessString guess.

Definition duplicate_text (duplicateName : string) : string :=
  "Duplicate moduleGroup name " +:+ Quote duplicateName.

(** ** Operations *)

Definition NewSimpleNameInterface : SimpleNameInterface :=
  mkSimpleNameInterface ∅ ∅.

Definition set_modules (m : gmap string ModuleGroup) (w : World) : World :=
  mkWorld (heap w) (mkSimpleNameInterface m (skippedModules (registry w))).

Definition set_skippedModules (m : gmap string (list SkippedModuleInfo)) (w : World) : World :=
  mkWorld (heap w) (mkSimpleNameInterface (modules (registry w)) m).

Definition set_heap (h : gmap loc moduleGroup) (w : World) : World :=
  mkWorld h (registry w).

Definition NewModule (ctx : NamespaceContext) (group : ModuleGroup) (module : Module_)
    (w : World) : result ((Namespace * list error) * World) :=
  let! g := load (heap w) group in
  let name := name g in
  match modules (registry w) !! name with
  | Some group =>
      let! existing := load (heap w) group in
      Return ((None, [already_defined_text name (pos (firstModule (group_modules existing)))]), w)
  | None =>
      Return ((None, []), set_modules (<[name := group]> (modules (registry w))) w)
  end.

Definition NewSkippedModule (ctx : NamespaceContext) (name : string)
    (info : SkippedModuleInfo) (w : World) : World :=
  if String.eqb name "" then w
  else
    set_skippedModules
      (<[name := default [] (skippedModules (registry w) !! name) ++ [info]]>
         (skippedModules (registry w))) w.

Definition ModuleFromName (moduleName : string) (namespace : Namespace) (w : World)
  : ModuleGroup * bool :=
  match modules (registry w) !! moduleName with
  | Some group => (group, true)
  | None => (mkModuleGroup None, false)
  end.

Definition SkippedModuleFromName (moduleName : string) (namespace : Namespace) (w : World)
  : list SkippedModuleInfo * bool :=
  match skippedModules (registry w) !! moduleName with
  | Some skipInfos => (skipInfos, true)
  | None => ([], false)
  end.

Definition Rename (oldName newName : string) (namespace : Namespace) (w : World)
  : result (list error * World) :=
  match modules (registry w) !! newName with
  | Some existingGroup =>
      let! existing := load (heap w) existingGroup in
      Return ([rename_conflict_text oldName newName
                 (pos (firstModule (group_modules existing)))], w)
  | None =>
      match modules (registry w) !! oldName with
      | None => Return ([rename_missing_text oldName newName], w)
      | Some group =>
          let inserted := <[newName := group]> (modules (registry w)) in
          let! g := load (heap w) group in
          let removed := delete (name g) inserted in
          let! h := store_name (heap w) group newName in
          Return ([], set_heap h (set_modules removed w))
      end
  end.

Definition MissingDependencyError (depender : string) (dependerNamespace : Namespace)
    (dependency : string) (guess : list string) (w : World) : error :=
  let '(skipInfos, skipped) := SkippedModuleFromName dependency dependerNamespace w in
  if skipped then
    let filesFound := filename <$> skipInfos in
    let reasons := reason <$> skipInfos in
    skipped_text depender dependency filesFound reasons
  else undefined_text depender dependency guess.

(** *** Enumeration *)

(** [groups[i]]. *)
Definition index (groups : list ModuleGroup) (i : nat) : result ModuleGroup :=
  match groups !! i with
  | Some g => Return g
  | None => Panicked IndexOutOfRange
  end.

(** The closure [less] of [AllModules]; the variable [duplicateName] it
    captures is passed in and handed back. *)
Definition less (h : gmap loc moduleGroup) (groups : list ModuleGroup)
    (duplicateName : string) (i j : nat) : result (bool * string) :=
  let! gi := index groups i in
  let! mi := load h gi in
  let! gj := index groups j in
  let! mj := load h gj in
  let duplicateName := if String.eqb (name mi) (name mj) then name mi else duplicateName in
  Return (String.ltb (name mi) (name mj), duplicateName).

(** The swapper of [sort.Slice]: [groups[i], groups[j] = groups[j], groups[i]]. *)
Definition Swap (groups : list ModuleGroup) (i j : nat) : result (list ModuleGroup) :=
  let! gi := index groups i in
  let! gj := index groups j in
  Return (<[i := gj]> (<[j := gi]> groups)).

(** [for j := i; j > 0 && less(j, j-1); j-- { swap(j, j-1) }] *)
Fixpoint insertionSort_inner (h : gmap loc moduleGroup) (j : nat)
    (st : list ModuleGroup * string) : result (list ModuleGroup * string) :=
  match j with
  | 0 => Return st
  | S j' =>
      let! (b, duplicateName) := less h st.1 st.2 j j' in
      if b : bool then
        let! groups := Swap st.1 j j' in
        insertionSort_inner h j' (groups, duplicateName)
      else Return (st.1, duplicateName)
  end.

(** [for i := ...; i < b; i++], with [count] iterations left. *)
Fixpoint insertionSort_outer (h : gmap loc moduleGroup) (i count : nat)
    (st : list ModuleGroup * string) : result (list ModuleGroup * string) :=
  match count with
  | 0 => Return st
  | S count' =>
      let! st' := insertionSort_inner h i st in
      insertionSort_outer h (S i) count' st'
  end.

(** [sort.Slice(groups, less)]. The library sorts short slices by insertion
    ([insertionSort_func] from index 0 to the length); that is the comparison
    sequence modelled here, for every length. When the names are pairwise
    distinct the sorted slice does not depend on the comparison sequence. *)
Definition sort_Slice (h : gmap loc moduleGroup) (groups : list ModuleGroup)
    (duplicateName : string) : result (list ModuleGroup * string) :=
  insertionSort_outer h 1 (length groups - 1) (groups, duplicateName).

(** [visit] is the sequence in which [range s.modules] yields the values: Go
    leaves the order open, so it is an input of the model, constrained by
    [range_order]. *)
Definition AllModules (visit : list ModuleGroup) (w : World) : result (list ModuleGroup) :=
  let groups := visit in
  let! (groups, duplicateName) := sort_Slice (heap w) groups "" in
  if negb (String.eqb duplicateName "") then
    Panicked (PanicMsg (duplicate_text duplicateName))
  else Return groups.

Definition range_order (w : World) (visit : list ModuleGroup) : Prop :=
  visit ≡ₚ (map_to_list (modules (registry w))).*2.

(** ** Invariants and reachable worlds *)

(** Every key of the table leads to a live group record that bears the key
    as its name. *)
Definition names_consistent (w : World) : Prop :=
  ∀ k g, modules (registry w) !! k = Some g →
    ∃ mg, deref (heap w) g = Some mg ∧ name mg = k.

(** No skip record is filed under the empty name. *)
Definition no_empty_skip (w : World) : Prop :=
  skippedModules (registry w) !! "" = None.

(** The worlds a caller obtains from a fresh registry: it allocates group
    records, replaces the module collection of a record, and calls the
    operations of the registry; the name of a record is written by [Rename]
    only. *)
Inductive reachable : World → Prop :=
| reachable_new :
    reachable (mkWorld ∅ NewSimpleNameInterface)
| reachable_alloc w l mg :
    reachable w → heap w !! l = None →
    reachable (set_heap (<[l := mg]> (heap w)) w)
| reachable_set_group_modules w l mg ms :
    reachable w → heap w !! l = Some mg →
    reachable (set_heap (<[l := mkModuleGroupRecord (name mg) ms]> (heap w)) w)
| reachable_NewModule w ctx group module r w' :
    reachable w → NewModule ctx group module w = Return (r, w') →
    reachable w'
| reachable_NewSkippedModule w ctx n info :
    reachable w → reachable (NewSkippedModule ctx n info w)
| reachable_Rename w oldName newName namespace errs w' :
    reachable w → Rename oldName newName namespace w = Return (errs, w') →
    reachable w'.

(** A run of registrations that all succeed. *)
Inductive registrations : World → list ModuleGroup → World → Prop :=
| registrations_nil w :
    registrations w [] w
| registrations_cons w ctx group module namespace w' groups w'' :
    NewModule ctx group module w = Return ((namespace, []), w') →
    registrations w' groups w'' →
    registrations w (group :: groups) w''.

(** The strict order of two handles by the names of their records. *)
Definition group_lt (h : gmap loc moduleGroup) (g1 g2 : ModuleGroup) : Prop :=
  match deref h g1, deref h g2 with
  | Some m1, Some m2 => name_lt (name m1) (name m2)
  | _, _ => False
  end.

(** The weak order of two handles: the second is not strictly below the first. *)
Definition group_le (h : gmap loc moduleGroup) (g1 g2 : ModuleGroup) : Prop :=
  ¬ group_lt h g2 g1.

(** The name read through a handle whose pointer is live. *)
Definition name_of (h : gmap loc moduleGroup) (g : ModuleGroup) : option string :=
  name <$> deref h g.

(** Every handle of the list is live. *)
Definition all_live (h : gmap loc moduleGroup) (groups : list ModuleGroup) : Prop :=
  Forall (λ g, is_Some (deref h g)) groups.

(** No two positions of the list bear the same name. *)
Definition distinct_names (h : gmap loc moduleGroup) (groups : list ModuleGroup) : Prop :=
  NoDup (name_of h <$> groups).

(** In the table of [w], [k] leads to [g]. *)
Definition maps_to (w : World) (k : string) (g : ModuleGroup) : Prop :=
  modules (registry w) !! k = Some g.

(** ** The remaining operations of the registry *)

(** [ModuleGroup.String]: the name read through the handle. *)
Definition ModuleGroup_String (h : gmap loc moduleGroup) (g : ModuleGroup) : result string :=
  let! mg := load h g in
  Return (name mg).

Definition GetNamespace (ctx : NamespaceContext) : Namespace := None.

Definition UniqueName (ctx : NamespaceContext) (n : string) : string := n.

(** One action of a caller on the world: it allocates a group record,
    replaces the module collection of a record, or calls an operation of the
    registry that returns. *)
Inductive step : World → World → Prop :=
| step_alloc w l mg :
    heap w !! l = None →
    step w (set_heap (<[l := mg]> (heap w)) w)
| step_set_group_modules w l mg ms :
    heap w !! l = Some mg →
    step w (set_heap (<[l := mkModuleGroupRecord (name mg) ms]> (heap w)) w)
| step_NewModule w ctx group module r w' :
    NewModule ctx group module w = Return (r, w') →
    step w w'
| step_NewSkippedModule w ctx n info :
    step w (NewSkippedModule ctx n info w)
| step_Rename w oldName newName namespace errs w' :
    Rename oldName newName namespace w = Return (errs, w') →
    step w w'.

(** The skip records filed under a name. *)
Definition skipInfos_of (w : World) (n : string) : list SkippedModuleInfo :=
  (SkippedModuleFromName n None w).1.

(** [NewSkippedModule] called once for each record of a list, in order. *)
Definition skip_all (ctx : NamespaceContext) (n : string)
    (infos : list SkippedModuleInfo) (w : World) : World :=
  foldl (λ w info, NewSkippedModule ctx n info w) w infos.

(** ** Example worlds *)

Definition handle (l : loc) : ModuleGroup := mkModuleGroup (Some l).

Definition h1 : ModuleGroup := handle 1%positive.
Definition h2 : ModuleGroup := handle 2%positive.
Definition h3 : ModuleGroup := handle 3%positive.
Definition h4 : ModuleGroup := handle 4%positive.
Definition h5 : ModuleGroup := handle 5%positive.

Definition single (n : string) (p : Position) : moduleGroup :=
  mkModuleGroupRecord n (mkModuleList (mkModuleInfo p) []).

(** Three group records, not yet registered. *)
Definition example_heap (p : Position) : gmap loc moduleGroup :=
  <[1%positive := single "zeta" p]>
    (<[2%positive := single "alpha" p]> (<[3%positive := single "mu" p]> ∅)).

Definition example_fresh (p : Position) : World :=
  mkWorld (example_heap p) NewSimpleNameInterface.

(** The three groups registered under their names. *)
Definition example_world (p : Position) : World :=
  mkWorld (example_heap p)
    (mkSimpleNameInterface
       (<["zeta" := h1]> (<["alpha" := h2]> (<["mu" := h3]> ∅))) ∅).

(** A fourth record bearing a registered name and one bearing the empty
    name, both unregistered. *)
Definition example_world' (p p' : Position) : World :=
  set_heap (<[4%positive := single "alpha" p']> (<[5%positive := single "" p']> (example_heap p)))
    (example_world p).

(** A corrupted table: two entries whose records both bear the empty name. *)
Definition corrupt_world (p : Position) : World :=
  mkWorld (<[1%positive := single "" p]> (<[2%positive := single "" p]> ∅))
    (mkSimpleNameInterface (<["a" := h1]> (<["b" := h2]> ∅)) ∅).

(** A corrupted table whose two records share a name that is not empty. *)
Definition corrupt_world' (p : Position) : World :=
  mkWorld (<[1%positive := single "x" p]> (<[2%positive := single "x" p]> ∅))
    (mkSimpleNameInterface (<["a" := h1]> (<["b" := h2]> ∅)) ∅).

(** A table whose entry for "a" leads to a record named "c". *)
Definition stale_world (p : Position) : World :=
  mkWorld (<[1%positive := single "c" p]> ∅)
    (mkSimpleNameInterface (<["a" := h1]> ∅) ∅).

(** ** Strings: occurrence and order *)

Lemma string_app_assoc (a b c : string) : (a +:+ b) +:+ c = a +:+ (b +:+ c).
Proof.
  induction a as [|x a IH]; [done|].
  change (String x ((a +:+ b) +:+ c) = String x (a +:+ (b +:+ c))).
  by rewrite IH.
Qed.

Lemma string_app_nil_r (a : string) : a +:+ "" = a.
Proof.
  induction a as [|x a IH]; [done|].
  change (String x (a +:+ "") = String x a). by rewrite IH.
Qed.

Lemma mentions_refl (s : string) : mentions s s.
Proof. exists "", "". by rewrite string_app_nil_r. Qed.

Lemma mentions_app_r (s p t : string) : mentions s t → mentions s (p +:+ t).
Proof.
  intros (before & after & ->). exists (p +:+ before), after.
  by rewrite string_app_assoc.
Qed.

Lemma mentions_app_l (s t p : string) : mentions s t → mentions s (t +:+ p).
Proof.
  intros (before & after & ->). exists before, (after +:+ p).
  by rewrite !string_app_assoc.
Qed.

Lemma mentions_Join (x : string) (l : list string) (sep : string) :
  x ∈ l → mentions x (Join l sep).
Proof.
  induction l as [|y l IH]; intros Hx; [by apply elem_of_nil in Hx|].
  apply elem_of_cons in Hx as [->|Hx].
  - destruct l as [|z l]; [apply mentions_refl|].
    apply mentions_app_l, mentions_refl.
  - destruct l as [|z l]; [by apply elem_of_nil in Hx|].
    change (mentions x (y +:+ sep +:+ Join (z :: l) sep)).
    by apply mentions_app_r, mentions_app_r, IH.
Qed.

Lemma ltb_compare (a b : string) : String.ltb a b = true ↔ String.compare a b = Lt.
Proof. unfold String.ltb. destruct (String.compare a b); naive_solver. Qed.

Lemma compare_refl (a : string) : String.compare a a = Eq.
Proof.
  induction a as [|x a IH]; [done|]. simpl.
  unfold Ascii.compare. by rewrite N.compare_refl.
Qed.

Lemma name_lt_le (a b : string) : name_lt a b ↔ String.le a b ∧ a ≠ b.
Proof.
  unfold name_lt, String.le, String.leb. rewrite ltb_compare. split.
  - intros H. rewrite H. split; [done|]. intros ->.
    by rewrite compare_refl in H.
  - intros [Hle Hne]. destruct (String.compare a b) eqn:Hc; [|done..].
    by apply String.compare_eq_iff in Hc.
Qed.

Example name_lt_bytes :
  name_lt "alpha" "mu" ∧ name_lt "mu" "zeta" ∧ name_lt "Zeta" "alpha" ∧
  name_lt "mu" "mud" ∧ name_lt "" "a" ∧ ¬ name_lt "b" "a".
Proof. split_and!; try reflexivity. discriminate. Qed.

Lemma name_lt_irrefl (a : string) : ¬ name_lt a a.
Proof. rewrite name_lt_le. intros [_ H]. by apply H. Qed.

Lemma name_lt_trans (a b c : string) : name_lt a b → name_lt b c → name_lt a c.
Proof.
  rewrite !name_lt_le. intros [Hab Hne] [Hbc Hne']. split.
  - by etrans.
  - intros ->. apply Hne. by apply (anti_symm String.le).
Qed.

Lemma name_lt_total (a b : string) : ¬ name_lt a b → a ≠ b → name_lt b a.
Proof.
  rewrite !name_lt_le. intros Hn Hne.
  destruct (total String.le a b) as [H|H]; naive_solver.
Qed.

(** ** Loads and stores *)

Lemma load_Some h g mg : deref h g = Some mg → load h g = Return mg.
Proof. unfold load. by intros ->. Qed.

Lemma load_Return h g mg : load h g = Return mg → deref h g = Some mg.
Proof. unfold load. destruct (deref h g); naive_solver. Qed.

(** ** Registration *)

Lemma NewModule_fresh ctx group module w mg :
  deref (heap w) group = Some mg →
  modules (registry w) !! name mg = None →
  NewModule ctx group module w =
    Return ((None, []), set_modules (<[name mg := group]> (modules (registry w))) w).
Proof.
  intros Hg Hfree. unfold NewModule. rewrite (load_Some _ _ _ Hg). simpl.
  by rewrite Hfree.
Qed.

Lemma NewModule_taken ctx group module w mg existingGroup existing :
  deref (heap w) group = Some mg →
  modules (registry w) !! name mg = Some existingGroup →
  deref (heap w) existingGroup = Some existing →
  NewModule ctx group module w =
    Return ((None, [already_defined_text (name mg)
                      (pos (firstModule (group_modules existing)))]), w).
Proof.
  intros Hg Htaken He. unfold NewModule. rewrite (load_Some _ _ _ Hg). simpl.
  rewrite Htaken. by rewrite (load_Some _ _ _ He).
Qed.

Lemma ModuleFromName_insert n group namespace w :
  ModuleFromName n namespace (set_modules (<[n := group]> (modules (registry w))) w)
  = (group, true).
Proof. unfold ModuleFromName. simpl. by rewrite lookup_insert_eq. Qed.

Lemma NewSkippedModule_empty ctx info w : NewSkippedModule ctx "" info w = w.
Proof. done. Qed.

(** C2: registering a group under a name that is not yet in the table
    returns no error and the nil namespace, and a lookup of the name then
    finds that very group. *)
Theorem NewModule_then_ModuleFromName ctx group module namespace w mg :
  deref (heap w) group = Some mg →
  modules (registry w) !! name mg = None →
  ∃ w', NewModule ctx group module w = Return ((None, []), w') ∧
        ModuleFromName (name mg) namespace w' = (group, true).
Proof.
  intros Hg Hfree. eexists. split; [by apply NewModule_fresh|].
  apply ModuleFromName_insert.
Qed.

(** C10: the empty name is registered like any other: a group whose name is
    the empty string, on a table without an entry for it, is accepted with no
    error and found by a lookup of the empty name; [NewSkippedModule], in
    contrast, leaves the world as it is for the empty name. *)
Theorem NewModule_accepts_empty_name ctx group module namespace info w mg :
  deref (heap w) group = Some mg →
  name mg = "" →
  modules (registry w) !! "" = None →
  ∃ w', NewModule ctx group module w = Return ((None, []), w') ∧
        ModuleFromName "" namespace w' = (group, true) ∧
        NewSkippedModule ctx "" info w' = w'.
Proof.
  intros Hg Hname Hfree. rewrite <-Hname in Hfree.
  eexists. split; [by apply NewModule_fresh|]. rewrite Hname. split.
  - apply ModuleFromName_insert.
  - apply NewSkippedModule_empty.
Qed.

(** C1: when the name of the group is already in the table, [NewModule]
    returns exactly one error, whose text contains the position of the first
    module of the group found there, and the world (table of groups, table of
    skip records and every group record) is the one before the call. *)
Theorem NewModule_duplicate_rejected ctx group module w mg existingGroup existing :
  deref (heap w) group = Some mg →
  modules (registry w) !! name mg = Some existingGroup →
  deref (heap w) existingGroup = Some existing →
  ∃ text, NewModule ctx group module w = Return ((None, [text]), w) ∧
          text = already_defined_text (name mg) (pos (firstModule (group_modules existing))) ∧
          mentions (Position_String (pos (firstModule (group_modules existing)))) text.
Proof.
  intros Hg Htaken He. eexists. split; [by eapply NewModule_taken|]. split; [done|].
  unfold already_defined_text.
  do 5 apply mentions_app_r. apply mentions_app_l, mentions_refl.
Qed.

(** ** Renaming *)

Lemma Rename_conflict oldName newName namespace w existingGroup existing :
  modules (registry w) !! newName = Some existingGroup →
  deref (heap w) existingGroup = Some existing →
  Rename oldName newName namespace w =
    Return ([rename_conflict_text oldName newName
               (pos (firstModule (group_modules existing)))], w).
Proof.
  intros Hnew He. unfold Rename. rewrite Hnew. by rewrite (load_Some _ _ _ He).
Qed.

Lemma Rename_missing oldName newName namespace w :
  modules (registry w) !! newName = None →
  modules (registry w) !! oldName = None →
  Rename oldName newName namespace w = Return ([rename_missing_text oldName newName], w).
Proof. intros Hnew Hold. unfold Rename. by rewrite Hnew, Hold. Qed.

Lemma Rename_success oldName newName namespace w l mg :
  modules (registry w) !! newName = None →
  modules (registry w) !! oldName = Some (handle l) →
  heap w !! l = Some mg →
  Rename oldName newName namespace w =
    Return ([], set_heap (<[l := mkModuleGroupRecord newName (group_modules mg)]> (heap w))
                  (set_modules (delete (name mg) (<[newName := handle l]> (modules (registry w)))) w)).
Proof.
  intros Hnew Hold Hl. unfold Rename. rewrite Hnew, Hold.
  unfold load, store_name, deref. simpl. by rewrite Hl.
Qed.

Lemma mentions_conflict_position oldName newName p :
  mentions (Position_String p) (rename_conflict_text oldName newName p).
Proof.
  unfold rename_conflict_text.
  do 7 apply mentions_app_r. apply mentions_app_l, mentions_refl.
Qed.

(** C9: renaming a registered name to itself is refused: the call returns
    the conflict error, citing the position of the first module of the group
    registered under that name, and the world is the one before the call. *)
Theorem Rename_to_itself_rejected N namespace w group mg :
  modules (registry w) !! N = Some group →
  deref (heap w) group = Some mg →
  ∃ text, Rename N N namespace w = Return ([text], w) ∧
          text = rename_conflict_text N N (pos (firstModule (group_modules mg))) ∧
          mentions (Position_String (pos (firstModule (group_modules mg)))) text.
Proof.
  intros HN Hg. eexists. split; [by eapply Rename_conflict|]. split; [done|].
  apply mentions_conflict_position.
Qed.

Lemma Rename_Return_cases oldName newName namespace w errs w' :
  Rename oldName newName namespace w = Return (errs, w') →
  (∃ existingGroup existing,
      modules (registry w) !! newName = Some existingGroup ∧
      deref (heap w) existingGroup = Some existing ∧
      errs = [rename_conflict_text oldName newName
                (pos (firstModule (group_modules existing)))] ∧
      w' = w)
  ∨ (modules (registry w) !! newName = None ∧
     modules (registry w) !! oldName = None ∧
     errs = [rename_missing_text oldName newName] ∧
     w' = w)
  ∨ (∃ l mg,
      modules (registry w) !! newName = None ∧
      modules (registry w) !! oldName = Some (handle l) ∧
      heap w !! l = Some mg ∧
      errs = [] ∧
      w' = set_heap (<[l := mkModuleGroupRecord newName (group_modules mg)]> (heap w))
             (set_modules (delete (name mg) (<[newName := handle l]> (modules (registry w)))) w)).
Proof.
  unfold Rename. intros Hr.
  destruct (modules (registry w) !! newName) as [existingGroup|] eqn:Hnew.
  - destruct (load (heap w) existingGroup) as [existing|] eqn:Hload; [|done].
    simpl in Hr. injection Hr as <- <-. left.
    exists existingGroup, existing. split_and!; [done|by apply load_Return|done..].
  - right. destruct (modules (registry w) !! oldName) as [[[l|]]|] eqn:Hold.
    + right. unfold load, store_name, deref in Hr. simpl in Hr.
      destruct (heap w !! l) as [mg|] eqn:Hl; [|done]. simpl in Hr.
      injection Hr as <- <-. by exists l, mg.
    + done.
    + left. by injection Hr as <- <-.
Qed.

(** C4: a call of [Rename] that returns errors returns the world it was
    given, so the table and every group record, names included, are as
    before; and the error is either the conflict with the group registered
    under the new name, citing the position of its first module, or the
    report that the old name does not exist. *)
Theorem Rename_failure_changes_nothing oldName newName namespace w errs w' :
  Rename oldName newName namespace w = Return (errs, w') →
  errs ≠ [] →
  w' = w ∧
  ((∃ existingGroup existing,
      modules (registry w) !! newName = Some existingGroup ∧
      deref (heap w) existingGroup = Some existing ∧
      errs = [rename_conflict_text oldName newName
                (pos (firstModule (group_modules existing)))] ∧
      mentions (Position_String (pos (firstModule (group_modules existing))))
        (rename_conflict_text oldName newName (pos (firstModule (group_modules existing)))))
   ∨ (modules (registry w) !! newName = None ∧
      modules (registry w) !! oldName = None ∧
      errs = [rename_missing_text oldName newName])).
Proof.
  intros Hr Herrs.
  destruct (Rename_Return_cases _ _ _ _ _ _ Hr)
    as [(eg & e & Hnew & He & -> & ->)|[(Hnew & Hold & -> & ->)|(l & mg & _ & _ & _ & -> & _)]].
  - split; [done|]. left. exists eg, e.
    split_and!; [done..|apply mentions_conflict_position].
  - split; [done|]. by right.
  - done.
Qed.

(** ** The invariants hold in every reachable world *)

Lemma NewModule_Return_cases ctx group module w r w' :
  NewModule ctx group module w = Return (r, w') →
  ∃ mg, deref (heap w) group = Some mg ∧
    ((modules (registry w) !! name mg = None ∧ r = (None, []) ∧
      w' = set_modules (<[name mg := group]> (modules (registry w))) w)
     ∨ (∃ existingGroup existing,
          modules (registry w) !! name mg = Some existingGroup ∧
          deref (heap w) existingGroup = Some existing ∧
          r = (None, [already_defined_text (name mg)
                        (pos (firstModule (group_modules existing)))]) ∧
          w' = w)).
Proof.
  unfold NewModule. intros Hr.
  destruct (load (heap w) group) as [mg|] eqn:Hload; [|done]. simpl in Hr.
  exists mg. split; [by apply load_Return|].
  destruct (modules (registry w) !! name mg) as [existingGroup|] eqn:Hn.
  - right. destruct (load (heap w) existingGroup) as [existing|] eqn:Hload'; [|done].
    simpl in Hr. injection Hr as <- <-.
    exists existingGroup, existing. split_and!; [done|by apply load_Return|done..].
  - left. by injection Hr as <- <-.
Qed.

Lemma names_consistent_fresh h : names_consistent (mkWorld h NewSimpleNameInterface).
Proof. intros k g Hk. simpl in Hk. by rewrite lookup_empty in Hk. Qed.

Lemma names_consistent_alloc w l mg :
  names_consistent w → heap w !! l = None →
  names_consistent (set_heap (<[l := mg]> (heap w)) w).
Proof.
  intros Hw Hl k g Hk. destruct (Hw k g Hk) as (mg' & Hd & Hn).
  exists mg'. split; [|done]. unfold deref in *. simpl.
  destruct (moduleGroup_ptr g) as [l'|]; [|done].
  rewrite lookup_insert_ne; [done|]. intros ->. by rewrite Hl in Hd.
Qed.

Lemma names_consistent_set_group_modules w l mg ms :
  names_consistent w → heap w !! l = Some mg →
  names_consistent (set_heap (<[l := mkModuleGroupRecord (name mg) ms]> (heap w)) w).
Proof.
  intros Hw Hl k g Hk. destruct (Hw k g Hk) as (mg' & Hd & Hn).
  unfold deref in *. simpl. destruct (moduleGroup_ptr g) as [l'|]; [|done].
  destruct (decide (l = l')) as [<-|Hne].
  - rewrite lookup_insert_eq. eexists. split; [done|]. simpl. congruence.
  - rewrite lookup_insert_ne by done. by exists mg'.
Qed.

Lemma names_consistent_NewModule ctx group module w r w' :
  NewModule ctx group module w = Return (r, w') →
  names_consistent w → names_consistent w'.
Proof.
  intros Hr Hw. destruct (NewModule_Return_cases _ _ _ _ _ _ Hr)
    as (mg & Hg & [(Hfree & -> & ->)|(eg & e & _ & _ & _ & ->)]); [|done].
  intros k g Hk. simpl in Hk. destruct (decide (name mg = k)) as [<-|Hne].
  - rewrite lookup_insert_eq in Hk. injection Hk as <-. by exists mg.
  - rewrite lookup_insert_ne in Hk by done. by apply Hw.
Qed.

Lemma names_consistent_NewSkippedModule ctx n info w :
  names_consistent w → names_consistent (NewSkippedModule ctx n info w).
Proof. unfold NewSkippedModule. by destruct (String.eqb n ""). Qed.

Lemma names_consistent_Rename oldName newName namespace w errs w' :
  Rename oldName newName namespace w = Return (errs, w') →
  names_consistent w → names_consistent w'.
Proof.
  intros Hr Hw.
  destruct (Rename_Return_cases _ _ _ _ _ _ Hr)
    as [(eg & e & _ & _ & _ & ->)|[(_ & _ & _ & ->)|(l & mg & Hnew & Hold & Hl & -> & ->)]];
    [done..|].
  destruct (Hw _ _ Hold) as (mg' & Hd & Hn). unfold deref in Hd. simpl in Hd.
  rewrite Hl in Hd. injection Hd as <-.
  intros k g Hk. simpl in Hk. rewrite Hn in Hk.
  destruct (decide (oldName = k)) as [<-|Hold_ne]; [by rewrite lookup_delete_eq in Hk|].
  rewrite lookup_delete_ne in Hk by done.
  destruct (decide (newName = k)) as [<-|Hnew_ne].
  - rewrite lookup_insert_eq in Hk. injection Hk as <-.
    eexists. unfold deref. simpl. rewrite lookup_insert_eq. done.
  - rewrite lookup_insert_ne in Hk by done.
    destruct (Hw _ _ Hk) as (mg2 & Hd2 & Hn2). exists mg2. split; [|done].
    unfold deref in *. simpl. destruct (moduleGroup_ptr g) as [l2|]; [|done].
    rewrite lookup_insert_ne; [done|]. intros ->. congruence.
Qed.

Lemma no_empty_skip_NewSkippedModule ctx n info w :
  no_empty_skip w → no_empty_skip (NewSkippedModule ctx n info w).
Proof.
  unfold no_empty_skip, NewSkippedModule. intros Hw.
  destruct (String.eqb n "") eqn:Hn; [done|]. simpl.
  apply String.eqb_neq in Hn. by rewrite lookup_insert_ne.
Qed.

Lemma reachable_invariants w : reachable w → names_consistent w ∧ no_empty_skip w.
Proof.
  induction 1 as [|w l mg _ [IHn IHs] Hl|w l mg ms _ [IHn IHs] Hl
                  |w ctx group module r w' _ [IHn IHs] Hr
                  |w ctx n info _ [IHn IHs]|w oldName newName namespace errs w' _ [IHn IHs] Hr].
  - split; [apply names_consistent_fresh|done].
  - split; [by apply names_consistent_alloc|done].
  - split; [by apply names_consistent_set_group_modules|done].
  - split; [by eapply names_consistent_NewModule|].
    destruct (NewModule_Return_cases _ _ _ _ _ _ Hr)
      as (mg & _ & [(_ & _ & ->)|(? & ? & _ & _ & _ & ->)]); done.
  - split; [by apply names_consistent_NewSkippedModule|by apply no_empty_skip_NewSkippedModule].
  - split; [by eapply names_consistent_Rename|].
    destruct (Rename_Return_cases _ _ _ _ _ _ Hr)
      as [(? & ? & _ & _ & _ & ->)|[(_ & _ & _ & ->)|(? & ? & _ & _ & _ & _ & ->)]]; done.
Qed.

(** C3: in a world whose table is consistent, renaming a registered name
    [A] to an unregistered name [B] returns no error; afterwards a lookup of
    [A] finds nothing, a lookup of [B] finds the group that was under [A],
    the record of that group bears the name [B] and keeps its modules; in the
    world before the call and in the world after it exactly one of the two
    names leads to the group; and the table is consistent again. *)
Theorem Rename_moves_group A B namespace w group :
  names_consistent w →
  modules (registry w) !! A = Some group →
  modules (registry w) !! B = None →
  ∃ w', Rename A B namespace w = Return ([], w') ∧
        ModuleFromName A namespace w' = (mkModuleGroup None, false) ∧
        ModuleFromName B namespace w' = (group, true) ∧
        (∃ mg mg', deref (heap w) group = Some mg ∧
                   deref (heap w') group = Some mg' ∧
                   name mg' = B ∧ group_modules mg' = group_modules mg) ∧
        (maps_to w A group ∧ ¬ maps_to w B group) ∧
        (¬ maps_to w' A group ∧ maps_to w' B group) ∧
        names_consistent w'.
Proof.
  intros Hw HA HB. destruct (Hw _ _ HA) as (mg & Hd & Hn).
  assert (A ≠ B) as Hne by (intros ->; congruence).
  destruct group as [[l|]]; [|done]. unfold deref in Hd. simpl in Hd.
  pose proof (Rename_success A B namespace w l mg HB HA Hd) as Hr.
  eexists. split; [exact Hr|]. rewrite Hn.
  unfold ModuleFromName, maps_to. simpl.
  rewrite lookup_delete_eq, lookup_delete_ne, lookup_insert_eq by done.
  split_and!; try done.
  - exists mg. eexists. unfold deref. simpl. rewrite Hd, lookup_insert_eq. done.
  - by rewrite HB.
  - rewrite <-Hn. by eapply names_consistent_Rename.
Qed.

(** ** Skip records and diagnostics *)

(** C8: [NewSkippedModule] always yields a world. It never touches the heap
    or the table of groups, nor the skip records of another name. For the
    empty name the world is the one before the call and, no record being
    filed under the empty name in a reachable world, a lookup of the empty
    name reports nothing skipped; for any other name the record is put at
    the end of the records already filed under that name. *)
Theorem NewSkippedModule_appends ctx n info namespace w :
  no_empty_skip w →
  let w' := NewSkippedModule ctx n info w in
  heap w' = heap w ∧
  modules (registry w') = modules (registry w) ∧
  (∀ k, k ≠ n → skippedModules (registry w') !! k = skippedModules (registry w) !! k) ∧
  if decide (n = "") then
    w' = w ∧ SkippedModuleFromName "" namespace w' = ([], false)
  else
    SkippedModuleFromName n namespace w' =
      (default [] (skippedModules (registry w) !! n) ++ [info], true).
Proof.
  intros Hw. unfold NewSkippedModule. case_decide as Hn.
  - subst n. simpl. split_and!; try done.
    unfold SkippedModuleFromName. by rewrite Hw.
  - apply String.eqb_neq in Hn. rewrite Hn. simpl. split_and!; try done.
    + intros k Hk. by rewrite lookup_insert_ne.
    + unfold SkippedModuleFromName. simpl. by rewrite lookup_insert_eq.
Qed.

Lemma mentions_filesFound depender dependency filesFound reasons x :
  x ∈ filesFound → mentions x (skipped_text depender dependency filesFound reasons).
Proof.
  intros Hx. unfold skipped_text.
  do 7 apply mentions_app_r. by apply mentions_app_l, mentions_Join.
Qed.

Lemma mentions_reasons depender dependency filesFound reasons x :
  x ∈ reasons → mentions x (skipped_text depender dependency filesFound reasons).
Proof.
  intros Hx. unfold skipped_text.
  do 9 apply mentions_app_r. by apply mentions_app_l, mentions_Join.
Qed.

Lemma mentions_Quote_list guess x :
  x ∈ guess → mentions (Quote x) (guessString guess).
Proof.
  intros Hx. destruct guess as [|y guess]; [by apply elem_of_nil in Hx|].
  unfold guessString, Quote_list.
  apply mentions_app_r, mentions_app_l, mentions_app_r, mentions_app_l.
  apply mentions_Join. by apply list_elem_of_fmap_2.
Qed.

(** C7: [MissingDependencyError] branches on the presence of skip records
    for the missing name. With records, the text is the skipped-module
    message, the file names joined by a comma and a space and the reasons by
    a semicolon and a space, and it contains the file name and the reason of
    every record. Without records, the text is the undefined-module message
    followed by a clause that is empty exactly when no suggestion is given
    and otherwise is the question quoting the suggestions, each of which it
    contains in quoted form. *)
Theorem MissingDependencyError_branches depender dependerNamespace dependency guess w :
  let text := MissingDependencyError depender dependerNamespace dependency guess w in
  match skippedModules (registry w) !! dependency with
  | Some skipInfos =>
      text = "module " +:+ Quote depender +:+ " depends on skipped module " +:+
             Quote dependency +:+ "; " +:+ Quote dependency +:+
             " was defined in files(s) [" +:+ Join (filename <$> skipInfos) ", " +:+
             "], but was skipped for reason(s) [" +:+ Join (reason <$> skipInfos) "; " +:+ "]" ∧
      ∀ info, info ∈ skipInfos →
        mentions (filename info) text ∧ mentions (reason info) text
  | None =>
      ∃ clause,
        text = (Quote depender +:+ " depends on undefined module " +:+
                Quote dependency +:+ ".") +:+ clause ∧
        mentions "undefined module" text ∧
        (clause = "" ↔ guess = []) ∧
        (guess ≠ [] → clause = " Did you mean " +:+ Quote_list guess +:+ "?") ∧
        (∀ x, x ∈ guess → mentions (Quote x) clause)
  end.
Proof.
  unfold MissingDependencyError, SkippedModuleFromName. simpl.
  destruct (skippedModules (registry w) !! dependency) as [skipInfos|].
  - split; [done|]. intros info Hinfo. split.
    + by apply mentions_filesFound, list_elem_of_fmap_2.
    + by apply mentions_reasons, list_elem_of_fmap_2.
  - exists (guessString guess). split_and!.
    + unfold undefined_text. by rewrite !string_app_assoc.
    + unfold undefined_text. apply mentions_app_r, mentions_app_l.
      exists " depends on ", " ". done.
    + destruct guess; [done|]. split; [|done].
      unfold guessString. intros H. discriminate H.
    + by destruct guess.
    + apply mentions_Quote_list.
Qed.

(** ** Enumeration: the insertion sort *)

Lemma group_lt_names h g1 g2 m1 m2 :
  deref h g1 = Some m1 → deref h g2 = Some m2 →
  group_lt h g1 g2 ↔ name_lt (name m1) (name m2).
Proof. unfold group_lt. by intros -> ->. Qed.

Lemma group_lt_trans h : Transitive (group_lt h).
Proof.
  intros g1 g2 g3. unfold group_lt.
  destruct (deref h g1), (deref h g2), (deref h g3); try done.
  apply name_lt_trans.
Qed.

Lemma group_lt_asym h g1 g2 : group_lt h g1 g2 → group_lt h g2 g1 → False.
Proof.
  intros H1 H2. pose proof (group_lt_trans h _ _ _ H1 H2) as H.
  unfold group_lt in H. destruct (deref h g1); [|done].
  by apply name_lt_irrefl in H.
Qed.

Lemma less_spec h groups duplicateName i j gi gj mi mj :
  groups !! i = Some gi → groups !! j = Some gj →
  deref h gi = Some mi → deref h gj = Some mj →
  less h groups duplicateName i j =
    Return (String.ltb (name mi) (name mj),
            if String.eqb (name mi) (name mj) then name mi else duplicateName).
Proof.
  intros Hi Hj Hmi Hmj. unfold less, index. rewrite Hi, Hj. simpl.
  by rewrite (load_Some _ _ _ Hmi), (load_Some _ _ _ Hmj).
Qed.

Lemma lookup_after_middle (a : list ModuleGroup) y x post :
  (a ++ y :: x :: post) !! S (length a) = Some x.
Proof. induction a; simpl; done. Qed.

Lemma Swap_adjacent (a : list ModuleGroup) y x post :
  Swap (a ++ y :: x :: post) (S (length a)) (length a) = Return (a ++ x :: y :: post).
Proof.
  unfold Swap, index. rewrite lookup_after_middle, list_lookup_middle by done. simpl.
  f_equal. induction a as [|z a IH]; simpl; [done|]. by rewrite IH.
Qed.

Lemma ltb_eqb (a b : string) : String.ltb a b = true → String.eqb a b = false.
Proof.
  intros Hlt. apply String.eqb_neq. intros ->. by apply (name_lt_irrefl b).
Qed.

(** One run of the inner loop: the element at position [length a] sinks
    into the prefix [a] until the element on its left is not above it; only
    that last comparison can meet an equal name. *)
Lemma insertionSort_inner_spec h a :
  ∀ x post duplicateName mx,
    all_live h a → deref h x = Some mx →
    ∃ a1 a2 duplicateName',
      a = a1 ++ a2 ∧
      insertionSort_inner h (length a) (a ++ x :: post, duplicateName)
        = Return (a1 ++ x :: a2 ++ post, duplicateName') ∧
      Forall (group_lt h x) a2 ∧
      (∀ y, last a1 = Some y → ¬ group_lt h x y) ∧
      duplicateName' =
        match last a1 with
        | Some y => if decide (name_of h y = Some (name mx)) then name mx else duplicateName
        | None => duplicateName
        end.
Proof.
  induction a as [|y a' IH] using rev_ind; intros x post duplicateName mx Hlive Hx.
  - by exists [], [], duplicateName.
  - apply Forall_app in Hlive as [Hlive' Hy]. apply Forall_singleton in Hy as [my Hy].
    rewrite length_app, Nat.add_1_r. rewrite <-app_assoc.
    cbn [insertionSort_inner fst snd app].
    rewrite (less_spec h _ duplicateName _ _ x y mx my);
      [|apply lookup_after_middle|by apply list_lookup_middle|done..].
    cbn [bind]. destruct (String.ltb (name mx) (name my)) eqn:Hlt.
    + rewrite Swap_adjacent. cbn [bind]. rewrite (ltb_eqb _ _ Hlt).
      destruct (IH x (y :: post) duplicateName mx Hlive' Hx)
        as (a1 & a2 & dup' & -> & Hrun & Hlt2 & Hlast & Hdup).
      exists a1, (a2 ++ [y]), dup'. split_and!.
      * by rewrite <-app_assoc.
      * rewrite Hrun. by rewrite <-!app_assoc.
      * apply Forall_app. split; [done|]. apply Forall_singleton.
        by apply (group_lt_names h x y mx my).
      * done.
      * done.
    + exists (a' ++ [y]), [], (if String.eqb (name mx) (name my) then name mx else duplicateName).
      split_and!.
      * by rewrite app_nil_r.
      * by rewrite <-app_assoc.
      * done.
      * intros z. rewrite last_snoc. intros [= <-].
        rewrite (group_lt_names h x y mx my) by done. unfold name_lt. by rewrite Hlt.
      * rewrite last_snoc. unfold name_of. rewrite Hy. simpl.
        destruct (String.eqb_spec (name mx) (name my)) as [Heq|Hne].
        -- by rewrite decide_True by (by rewrite Heq).
        -- by rewrite decide_False by (intros [=]; by apply Hne).
Qed.

Lemma group_lt_total h g1 g2 m1 m2 :
  deref h g1 = Some m1 → deref h g2 = Some m2 →
  name m1 ≠ name m2 → ¬ group_lt h g1 g2 → group_lt h g2 g1.
Proof.
  intros H1 H2 Hne. rewrite (group_lt_names h g1 g2 m1 m2), (group_lt_names h g2 g1 m2 m1) by done.
  intros Hn. by apply name_lt_total.
Qed.

Lemma sorted_insert_middle h a1 a2 x mx :
  deref h x = Some mx →
  all_live h (a1 ++ a2) →
  name_of h x ∉ name_of h <$> a1 →
  StronglySorted (group_lt h) (a1 ++ a2) →
  Forall (group_lt h x) a2 →
  (∀ y, last a1 = Some y → ¬ group_lt h x y) →
  StronglySorted (group_lt h) (a1 ++ x :: a2).
Proof.
  intros Hx Hlive Hfresh Hsorted Hright Hleft.
  apply StronglySorted_app in Hsorted as (Hcross & Hs1 & Hs2).
  apply StronglySorted_app. split_and!; [|done|by constructor].
  intros x1 x2 Hx1 Hx2. apply elem_of_cons in Hx2 as [->|Hx2]; [|by apply Hcross].
  destruct (last a1) as [y|] eqn:Hlast; [|by apply last_None in Hlast; subst; apply elem_of_nil in Hx1].
  assert (group_lt h y x) as Hyx.
  { assert (y ∈ a1) as Hy by by apply last_Some_elem_of.
    apply Forall_app in Hlive as [Hlive1 _].
    destruct (proj1 (Forall_forall _ _) Hlive1 y Hy) as [my Hmy].
    apply (group_lt_total h x y mx my); [done..| |by apply Hleft].
    intros Hn. apply Hfresh. apply list_elem_of_fmap. exists y.
    split; [|done]. unfold name_of. rewrite Hx, Hmy. simpl. by rewrite Hn. }
  apply last_Some in Hlast as [a1' ->].
  apply elem_of_app in Hx1 as [Hx1|Hx1].
  - apply (group_lt_trans h _ y); [|done].
    apply StronglySorted_app in Hs1 as (Hc & _ & _). apply Hc; [done|].
    by apply list_elem_of_singleton.
  - by apply list_elem_of_singleton in Hx1 as ->.
Qed.

(** The outer loop keeps a sorted prefix and, the names being pairwise
    distinct, never records a duplicate. *)
Lemma insertionSort_outer_spec h rest :
  ∀ pre duplicateName,
    all_live h (pre ++ rest) → distinct_names h (pre ++ rest) →
    StronglySorted (group_lt h) pre →
    ∃ sorted,
      insertionSort_outer h (length pre) (length rest) (pre ++ rest, duplicateName)
        = Return (sorted, duplicateName) ∧
      sorted ≡ₚ pre ++ rest ∧
      StronglySorted (group_lt h) sorted.
Proof.
  induction rest as [|x rest IH]; intros pre duplicateName Hlive Hdistinct Hsorted.
  - exists pre. rewrite app_nil_r. by split_and!.
  - pose proof Hlive as Hlive0.
    apply Forall_app in Hlive as [Hpre Hrest]. apply Forall_cons in Hrest as [[mx Hx] Hrest].
    destruct (insertionSort_inner_spec h pre x rest duplicateName mx Hpre Hx)
      as (a1 & a2 & dup' & -> & Hrun & Hright & Hleft & Hdup).
    assert (name_of h x ∉ name_of h <$> a1 ++ a2) as Hfresh.
    { unfold distinct_names in Hdistinct. rewrite fmap_app, fmap_cons in Hdistinct.
      apply NoDup_app in Hdistinct as (_ & Hcross & _).
      intros Hin. apply (Hcross _ Hin). by left. }
    assert (dup' = duplicateName) as ->.
    { rewrite Hdup. destruct (last a1) as [y|] eqn:Hl; [|done].
      rewrite decide_False; [done|]. intros Hn. apply Hfresh.
      apply list_elem_of_fmap. exists y. split.
      - rewrite Hn. unfold name_of. by rewrite Hx.
      - apply elem_of_app. left. by apply last_Some_elem_of. }
    assert ((a1 ++ x :: a2) ++ rest ≡ₚ (a1 ++ a2) ++ x :: rest) as Hperm.
    { rewrite <-!app_assoc. apply Permutation_app_head. simpl.
      by rewrite Permutation_middle. }
    destruct (IH (a1 ++ x :: a2) duplicateName) as (sorted & Hrun' & Hperm' & Hsorted').
    + unfold all_live. by rewrite Hperm.
    + unfold distinct_names. by rewrite Hperm.
    + apply (sorted_insert_middle h a1 a2 x mx); try done.
      intros Hin. apply Hfresh. rewrite fmap_app. apply elem_of_app. by left.
    + exists sorted. split_and!; [|by rewrite Hperm', Hperm|done].
      cbn [length insertionSort_outer]. rewrite Hrun. cbn [bind].
      replace (S (length (a1 ++ a2))) with (length (a1 ++ x :: a2))
        by (rewrite !length_app; simpl; lia).
      by rewrite <-app_assoc in Hrun'.
Qed.

Lemma sort_Slice_spec h groups duplicateName :
  all_live h groups → distinct_names h groups →
  ∃ sorted,
    sort_Slice h groups duplicateName = Return (sorted, duplicateName) ∧
    sorted ≡ₚ groups ∧
    StronglySorted (group_lt h) sorted.
Proof.
  intros Hlive Hdistinct. unfold sort_Slice. destruct groups as [|g rest].
  - exists []. split_and!; [done..|constructor].
  - cbn [length]. rewrite Nat.sub_1_r. cbn [pred].
    apply (insertionSort_outer_spec h rest [g] duplicateName); [done..|].
    by repeat constructor.
Qed.

(** When the handles are live and their names pairwise distinct,
    [AllModules] returns them in strictly ascending order of name. *)
Lemma AllModules_distinct w visit :
  all_live (heap w) visit → distinct_names (heap w) visit →
  ∃ sorted,
    AllModules visit w = Return sorted ∧
    sorted ≡ₚ visit ∧
    StronglySorted (group_lt (heap w)) sorted.
Proof.
  intros Hlive Hdistinct.
  destruct (sort_Slice_spec (heap w) visit "" Hlive Hdistinct) as (sorted & Hrun & Hperm & Hs).
  exists sorted. split_and!; [|done..]. unfold AllModules. by rewrite Hrun.
Qed.

Lemma consistent_names_of w :
  names_consistent w →
  name_of (heap w) <$> (map_to_list (modules (registry w))).*2
  = Some <$> (map_to_list (modules (registry w))).*1.
Proof.
  intros Hw. rewrite <-!list_fmap_compose. apply Forall_fmap_ext, Forall_forall.
  intros [k g] Hkg. apply elem_of_map_to_list in Hkg.
  destruct (Hw _ _ Hkg) as (mg & Hd & Hn). simpl. unfold name_of. by rewrite Hd, <-Hn.
Qed.

Lemma consistent_range w visit :
  names_consistent w → range_order w visit →
  all_live (heap w) visit ∧ distinct_names (heap w) visit.
Proof.
  intros Hw Hvisit. unfold range_order in Hvisit. split.
  - unfold all_live. rewrite Hvisit. apply Forall_fmap, Forall_forall.
    intros [k g] Hkg. apply elem_of_map_to_list in Hkg.
    destruct (Hw _ _ Hkg) as (mg & Hd & _). simpl. by exists mg.
  - unfold distinct_names. rewrite Hvisit, consistent_names_of by done.
    apply (NoDup_fmap_2 Some), NoDup_fst_map_to_list.
Qed.

(** In a consistent world the enumeration returns, whatever the order in
    which the table is visited. *)
Lemma AllModules_consistent w visit :
  names_consistent w → range_order w visit →
  ∃ sorted,
    AllModules visit w = Return sorted ∧
    sorted ≡ₚ (map_to_list (modules (registry w))).*2 ∧
    StronglySorted (group_lt (heap w)) sorted.
Proof.
  intros Hw Hvisit. destruct (consistent_range w visit Hw Hvisit) as [Hlive Hdistinct].
  destruct (AllModules_distinct w visit Hlive Hdistinct) as (sorted & Hrun & Hperm & Hs).
  exists sorted. split_and!; [done| |done]. by rewrite Hperm.
Qed.

Lemma registrations_values w groups w' :
  registrations w groups w' →
  names_consistent w →
  names_consistent w' ∧ heap w' = heap w ∧
  (map_to_list (modules (registry w'))).*2
    ≡ₚ groups ++ (map_to_list (modules (registry w))).*2.
Proof.
  induction 1 as [w|w ctx group module namespace w' groups w'' Hr _ IH]; intros Hw.
  - by split_and!.
  - destruct (NewModule_Return_cases _ _ _ _ _ _ Hr)
      as (mg & Hg & [(Hfree & _ & Hw')|(eg & e & _ & _ & [=] & _)]).
    destruct IH as (Hc & Hh & Hv); [by eapply names_consistent_NewModule|].
    split_and!; [done|by rewrite Hh, Hw'|].
    rewrite Hv, Hw'. simpl. rewrite map_to_list_insert by done.
    simpl. by rewrite Permutation_middle.
Qed.

Lemma sorted_unique h (l1 l2 : list ModuleGroup) :
  StronglySorted (group_lt h) l1 → StronglySorted (group_lt h) l2 →
  l1 ≡ₚ l2 → l1 = l2.
Proof.
  apply StronglySorted_unique_strong.
  intros x1 x2 _ _ H12 H21. by destruct (group_lt_asym h x1 x2).
Qed.

(** *** Duplicates that the enumeration does and does not see *)

Lemma group_le_names h g1 g2 m1 m2 :
  deref h g1 = Some m1 → deref h g2 = Some m2 →
  group_le h g1 g2 ↔ String.le (name m1) (name m2).
Proof.
  intros H1 H2. unfold group_le. rewrite (group_lt_names h g2 g1 m2 m1) by done.
  rewrite name_lt_le. split.
  - intros Hn. destruct (total String.le (name m1) (name m2)) as [|Hle]; [done|].
    destruct (decide (name m2 = name m1)) as [->|Hne]; [done|]. by destruct Hn.
  - intros Hle [Hle' Hne]. apply Hne. by apply (anti_symm String.le).
Qed.

Lemma weakly_sorted_insert_middle h a1 a2 x mx :
  deref h x = Some mx →
  all_live h (a1 ++ a2) →
  StronglySorted (group_le h) (a1 ++ a2) →
  Forall (group_lt h x) a2 →
  (∀ y, last a1 = Some y → ¬ group_lt h x y) →
  StronglySorted (group_le h) (a1 ++ x :: a2).
Proof.
  intros Hx Hlive Hsorted Hright Hleft.
  apply StronglySorted_app in Hsorted as (Hcross & Hs1 & Hs2).
  apply Forall_app in Hlive as [Hlive1 _].
  apply StronglySorted_app. split_and!; [|done|].
  - intros x1 x2 Hx1 Hx2. apply elem_of_cons in Hx2 as [->|Hx2]; [|by apply Hcross].
    destruct (last a1) as [y|] eqn:Hlast;
      [|by apply last_None in Hlast; subst; apply elem_of_nil in Hx1].
    pose proof (Hleft y eq_refl) as Hyx.
    apply last_Some in Hlast as [a1' ->].
    apply elem_of_app in Hx1 as [Hx1|Hx1];
      [|by apply list_elem_of_singleton in Hx1 as ->].
    assert (group_le h x1 y) as Hx1y.
    { apply StronglySorted_app in Hs1 as (Hc & _ & _). apply Hc; [done|].
      by apply list_elem_of_singleton. }
    apply Forall_app in Hlive1 as [Hl1 Hly]. apply Forall_singleton in Hly as [my Hmy].
    destruct (proj1 (Forall_forall _ _) Hl1 x1 Hx1) as [m1 Hm1].
    rewrite (group_le_names h x1 x m1 mx) by done.
    rewrite (group_le_names h x1 y m1 my) in Hx1y by done.
    change (group_le h y x) in Hyx. rewrite (group_le_names h y x my mx) in Hyx by done.
    by etrans.
  - constructor; [done|]. eapply Forall_impl; [exact Hright|].
    intros z Hz Hz'. by apply (group_lt_asym h x z).
Qed.

(** The outer loop on any live slice without an empty name: once the sorted
    prefix holds two equal names, [duplicateName] is not empty. *)
Lemma insertionSort_outer_detects h rest :
  ∀ pre duplicateName,
    all_live h (pre ++ rest) →
    (∀ g, g ∈ pre ++ rest → name_of h g ≠ Some "") →
    StronglySorted (group_le h) pre →
    duplicateName ≠ "" ∨ NoDup (name_of h <$> pre) →
    ∃ sorted duplicateName',
      insertionSort_outer h (length pre) (length rest) (pre ++ rest, duplicateName)
        = Return (sorted, duplicateName') ∧
      sorted ≡ₚ pre ++ rest ∧
      (duplicateName' ≠ "" ∨ NoDup (name_of h <$> sorted)).
Proof.
  induction rest as [|x rest IH]; intros pre duplicateName Hlive Hnamed Hsorted Hseen.
  - exists pre, duplicateName. rewrite app_nil_r. by split_and!.
  - pose proof Hlive as Hlive0.
    apply Forall_app in Hlive as [Hpre Hrest]. apply Forall_cons in Hrest as [[mx Hx] Hrest].
    destruct (insertionSort_inner_spec h pre x rest duplicateName mx Hpre Hx)
      as (a1 & a2 & dup' & -> & Hrun & Hright & Hleft & Hdup).
    assert (name mx ≠ "") as Hmx.
    { intros Hempty. apply (Hnamed x).
      - apply elem_of_app. right. by left.
      - unfold name_of. by rewrite Hx, <-Hempty. }
    assert ((a1 ++ x :: a2) ++ rest ≡ₚ (a1 ++ a2) ++ x :: rest) as Hperm.
    { rewrite <-!app_assoc. apply Permutation_app_head. simpl.
      by rewrite Permutation_middle. }
    destruct (IH (a1 ++ x :: a2) dup') as (sorted & dup'' & Hrun' & Hperm' & Hseen').
    + unfold all_live. by rewrite Hperm.
    + intros g Hg. apply Hnamed. by rewrite <-Hperm.
    + by apply (weakly_sorted_insert_middle h a1 a2 x mx).
    + destruct Hseen as [Hd|Hnd].
      { left. rewrite Hdup. destruct (last a1); [case_decide|]; done. }
      destruct (decide (name_of h x ∈ name_of h <$> a1 ++ a2)) as [Hin|Hnin].
      * left. apply list_elem_of_fmap in Hin as (y & Hy & Hyin).
        destruct (proj1 (Forall_forall _ _) Hpre y Hyin) as [my Hmy].
        unfold name_of in Hy. rewrite Hx, Hmy in Hy. injection Hy as Hy.
        apply elem_of_app in Hyin as [Hy1|Hy2].
        -- destruct (last a1) as [z|] eqn:Hlast;
             [|by apply last_None in Hlast; subst; apply elem_of_nil in Hy1].
           pose proof (Hleft z eq_refl) as Hzx. change (group_le h z x) in Hzx.
           assert (z ∈ a1) as Hz by by apply last_Some_elem_of.
           destruct (proj1 (Forall_forall _ _) Hpre z) as [mz Hmz];
             [apply elem_of_app; by left|].
           rewrite (group_le_names h z x mz mx) in Hzx by done.
           assert (String.le (name my) (name mz)) as Hyz.
           { apply last_Some in Hlast as [a1' ->].
             apply elem_of_app in Hy1 as [Hy1|Hy1].
             - apply (group_le_names h y z my mz); [done..|].
               apply StronglySorted_app_1_l in Hsorted.
               apply StronglySorted_app in Hsorted as (Hc & _ & _). apply Hc; [done|].
               by apply list_elem_of_singleton.
             - apply list_elem_of_singleton in Hy1 as ->.
               rewrite Hmy in Hmz. by injection Hmz as ->. }
           assert (name mz = name mx) as Hzeq.
           { apply (anti_symm String.le); [done|]. by rewrite Hy. }
           rewrite Hdup, decide_True; [done|]. unfold name_of. rewrite Hmz. simpl.
           by rewrite Hzeq.
        -- exfalso. pose proof (proj1 (Forall_forall _ _) Hright y Hy2) as Hlt.
           rewrite (group_lt_names h x y mx my) in Hlt by done.
           rewrite Hy in Hlt. by apply name_lt_irrefl in Hlt.
      * right. rewrite fmap_app, fmap_cons, <-Permutation_middle, <-fmap_app.
        by apply NoDup_cons.
    + exists sorted, dup''. split_and!; [|by rewrite Hperm', Hperm|done].
      cbn [length insertionSort_outer]. rewrite Hrun. cbn [bind].
      replace (S (length (a1 ++ a2))) with (length (a1 ++ x :: a2))
        by (rewrite !length_app; simpl; lia).
      by rewrite <-app_assoc in Hrun'.
Qed.

(** Two live groups that share a name make [AllModules] panic, provided no
    group of the table is named by the empty string. *)
Lemma AllModules_detects_named_duplicate w visit :
  all_live (heap w) visit →
  (∀ g, g ∈ visit → name_of (heap w) g ≠ Some "") →
  ¬ distinct_names (heap w) visit →
  ∃ n, n ≠ "" ∧ AllModules visit w = Panicked (PanicMsg (duplicate_text n)).
Proof.
  intros Hlive Hnamed Hdup. unfold AllModules, sort_Slice.
  destruct visit as [|g rest]; [by destruct Hdup; constructor|].
  cbn [length]. rewrite Nat.sub_1_r. cbn [pred].
  destruct (insertionSort_outer_detects (heap w) rest [g] "") as (sorted & n & Hrun & Hperm & Hseen);
    [done..|by repeat constructor| |].
  { right. simpl. apply NoDup_singleton. }
  simpl in Hrun. rewrite Hrun. cbn [bind].
  destruct Hseen as [Hn|Hnd].
  - exists n. split; [done|]. apply String.eqb_neq in Hn. by rewrite Hn.
  - destruct Hdup. unfold distinct_names. by rewrite <-Hperm.
Qed.

(** C5: after any run of successful registrations on a fresh registry, in
    whatever order the names came and in whatever order the table is
    visited, [AllModules] returns the registered groups, each once, in
    strictly ascending order of their names; that list is the only strictly
    ascending arrangement of the registered groups. *)
Theorem AllModules_sorted_after_registrations h groups w visit :
  registrations (mkWorld h NewSimpleNameInterface) groups w →
  range_order w visit →
  ∃ sorted,
    AllModules visit w = Return sorted ∧
    sorted ≡ₚ groups ∧
    StronglySorted (group_lt (heap w)) sorted ∧
    (∀ other, other ≡ₚ groups → StronglySorted (group_lt (heap w)) other → other = sorted).
Proof.
  intros Hreg Hvisit.
  destruct (registrations_values _ _ _ Hreg (names_consistent_fresh h)) as (Hw & _ & Hv).
  simpl in Hv. rewrite map_to_list_empty, app_nil_r in Hv.
  destruct (AllModules_consistent w visit Hw Hvisit) as (sorted & Hrun & Hperm & Hs).
  exists sorted. split_and!; [done|by rewrite Hperm|done|].
  intros other Hother Hs'. apply (sorted_unique (heap w)); [done..|].
  by rewrite Hother, Hperm, Hv.
Qed.

(** ** Further properties of registration and renaming *)

Lemma consistent_handle w k group :
  names_consistent w → modules (registry w) !! k = Some group →
  ∃ l mg, group = handle l ∧ heap w !! l = Some mg ∧ name mg = k.
Proof.
  intros Hw Hk. destruct (Hw _ _ Hk) as (mg & Hd & Hn).
  destruct group as [[l|]]; [|done]. by exists l, mg.
Qed.

(** X1: renaming a registered name to a free one and back again returns the
    world to what it was: the table, every group record and the skip
    records. *)
Theorem Rename_there_and_back A B namespace w group :
  names_consistent w →
  modules (registry w) !! A = Some group →
  modules (registry w) !! B = None →
  ∃ w1, Rename A B namespace w = Return ([], w1) ∧
        Rename B A namespace w1 = Return ([], w).
Proof.
  intros Hw HA HB. destruct (consistent_handle w A group Hw HA) as (l & mg & -> & Hl & Hn).
  assert (A ≠ B) as Hne by (intros ->; congruence).
  eexists. split; [by apply (Rename_success A B namespace w l mg)|].
  rewrite (Rename_success B A namespace _ l (mkModuleGroupRecord B (group_modules mg))); simpl.
  - f_equal. f_equal. destruct w as [h [m s]]. simpl in *. unfold set_heap, set_modules. simpl.
    f_equal.
    + rewrite insert_insert_eq. apply insert_id. rewrite Hl. f_equal.
      destruct mg. simpl in *. by subst.
    + f_equal. rewrite Hn. apply map_eq. intros k.
      destruct (decide (k = A)), (decide (k = B)); simplify_map_eq; done.
  - rewrite Hn. by rewrite lookup_delete_eq.
  - rewrite Hn. by rewrite lookup_delete_ne, lookup_insert_eq.
  - by rewrite lookup_insert_eq.
Qed.

(** X2: two renamings in a row, from [A] to a free name [B] and on to a
    free name [C], both succeed and leave the world that the single renaming
    from [A] to [C] leaves. *)
Theorem Rename_twice_is_once A B C namespace w group :
  names_consistent w →
  modules (registry w) !! A = Some group →
  modules (registry w) !! B = None →
  modules (registry w) !! C = None →
  B ≠ C →
  ∃ w1 w2, Rename A B namespace w = Return ([], w1) ∧
           Rename B C namespace w1 = Return ([], w2) ∧
           Rename A C namespace w = Return ([], w2).
Proof.
  intros Hw HA HB HC HBC. destruct (consistent_handle w A group Hw HA) as (l & mg & -> & Hl & Hn).
  assert (A ≠ B) as HAB by (intros ->; congruence).
  assert (A ≠ C) as HAC by (intros ->; congruence).
  eexists. eexists. split_and!.
  - by apply (Rename_success A B namespace w l mg).
  - apply (Rename_success B C namespace _ l (mkModuleGroupRecord B (group_modules mg))); simpl.
    + rewrite Hn. by rewrite lookup_delete_ne, lookup_insert_ne.
    + rewrite Hn. by rewrite lookup_delete_ne, lookup_insert_eq.
    + by rewrite lookup_insert_eq.
  - rewrite (Rename_success A C namespace w l mg) by done. f_equal. f_equal.
    unfold set_heap, set_modules. simpl. f_equal.
    + by rewrite insert_insert_eq.
    + f_equal. rewrite Hn. apply map_eq. intros k.
      destruct (decide (k = A)), (decide (k = B)), (decide (k = C));
        simplify_map_eq; done.
Qed.

(** X3: a renaming that succeeds touches nothing else: the entries of all
    other names, the skip records and the record of every other handle are
    as before, and the renamed record keeps its modules. *)
Theorem Rename_leaves_the_rest A B namespace w w' :
  names_consistent w →
  Rename A B namespace w = Return ([], w') →
  ∃ group mg,
    modules (registry w) !! A = Some group ∧
    deref (heap w) group = Some mg ∧
    deref (heap w') group = Some (mkModuleGroupRecord B (group_modules mg)) ∧
    (∀ k, k ≠ A → k ≠ B → modules (registry w') !! k = modules (registry w) !! k) ∧
    (∀ g, g ≠ group → deref (heap w') g = deref (heap w) g) ∧
    skippedModules (registry w') = skippedModules (registry w).
Proof.
  intros Hw Hr.
  destruct (Rename_Return_cases _ _ _ _ _ _ Hr)
    as [(? & ? & _ & _ & [=] & _)|[(_ & _ & [=] & _)|(l & mg & HB & HA & Hl & _ & ->)]].
  destruct (consistent_handle w A _ Hw HA) as (l' & mg' & [= <-] & Hl' & Hn).
  rewrite Hl in Hl'. injection Hl' as <-.
  exists (handle l), mg. simpl. split_and!; try done.
  - unfold deref. simpl. by rewrite lookup_insert_eq.
  - intros k HkA HkB. rewrite Hn. by rewrite lookup_delete_ne, lookup_insert_ne.
  - intros [[l2|]] Hg; unfold deref; simpl; [|done].
    rewrite lookup_insert_ne; [done|]. intros ->. by apply Hg.
Qed.

(** X4: in a consistent world [Rename] never panics; it returns at most one
    error, and none exactly when the old name is registered and the new name
    is free. *)
Theorem Rename_returns oldName newName namespace w :
  names_consistent w →
  ∃ errs w', Rename oldName newName namespace w = Return (errs, w') ∧
             length errs ≤ 1 ∧
             (errs = [] ↔ is_Some (modules (registry w) !! oldName) ∧
                          modules (registry w) !! newName = None).
Proof.
  intros Hw. destruct (modules (registry w) !! newName) as [existingGroup|] eqn:Hnew.
  - destruct (Hw _ _ Hnew) as (existing & He & _).
    eexists. eexists. split; [by eapply Rename_conflict|]. split; [simpl; lia|].
    split; [done|]. by intros [_ ?].
  - destruct (modules (registry w) !! oldName) as [group|] eqn:Hold.
    + destruct (consistent_handle w oldName group Hw Hold) as (l & mg & -> & Hl & Hn).
      eexists. eexists. split; [by eapply Rename_success|]. split; [simpl; lia|]. done.
    + eexists. eexists. split; [by apply Rename_missing|]. split; [simpl; lia|].
      split; [done|]. by intros [[? ?] _].
Qed.

(** X5: with a live group in a consistent world [NewModule] never panics;
    it returns the nil namespace and at most one error, none exactly when
    the name was free. The heap, the skip records and the entries of all
    other names are untouched, and the table grows by one entry on success
    and not at all on failure. *)
Theorem NewModule_outcome ctx group module w mg :
  names_consistent w →
  deref (heap w) group = Some mg →
  ∃ errs w',
    NewModule ctx group module w = Return ((None, errs), w') ∧
    length errs ≤ 1 ∧
    (errs = [] ↔ modules (registry w) !! name mg = None) ∧
    heap w' = heap w ∧
    skippedModules (registry w') = skippedModules (registry w) ∧
    (∀ k, k ≠ name mg → modules (registry w') !! k = modules (registry w) !! k) ∧
    size (modules (registry w')) =
      size (modules (registry w)) + (if decide (errs = []) then 1 else 0).
Proof.
  intros Hw Hg. destruct (modules (registry w) !! name mg) as [existingGroup|] eqn:Hn.
  - destruct (Hw _ _ Hn) as (existing & He & _).
    eexists. eexists. split; [by eapply NewModule_taken|].
    split_and!; try done; simpl; lia.
  - eexists. eexists. split; [by apply NewModule_fresh|]. simpl.
    split_and!; try done.
    + lia.
    + intros k Hk. by rewrite lookup_insert_ne.
    + rewrite map_size_insert_None by done. lia.
Qed.

(** X6: in a consistent world [NewModule] returns exactly when the pointer
    of the group handle is live; with a nil pointer it panics on reading the
    name. *)
Theorem NewModule_returns_iff_live ctx group module w :
  names_consistent w →
  (is_Some (deref (heap w) group) ↔ ∃ r w', NewModule ctx group module w = Return (r, w')) ∧
  (deref (heap w) group = None →
   NewModule ctx group module w = Panicked NilPointerDereference).
Proof.
  intros Hw. split; [split|].
  - intros [mg Hg]. destruct (modules (registry w) !! name mg) as [existingGroup|] eqn:Hn.
    + destruct (Hw _ _ Hn) as (existing & He & _).
      eexists. eexists. by eapply NewModule_taken.
    + eexists. eexists. by apply NewModule_fresh.
  - intros (r & w' & Hr). destruct (NewModule_Return_cases _ _ _ _ _ _ Hr) as (mg & Hg & _).
    by exists mg.
  - intros Hg. unfold NewModule, load. by rewrite Hg.
Qed.

(** X7: of two registrations under one name the first wins: it succeeds,
    the second returns the error citing the position of the first module of
    the first group and leaves the world of the first call, where the name
    still leads to the first group. *)
Theorem NewModule_first_wins ctx1 ctx2 g1 g2 module1 module2 namespace w m1 m2 :
  deref (heap w) g1 = Some m1 →
  deref (heap w) g2 = Some m2 →
  name m2 = name m1 →
  modules (registry w) !! name m1 = None →
  ∃ w1,
    NewModule ctx1 g1 module1 w = Return ((None, []), w1) ∧
    NewModule ctx2 g2 module2 w1 =
      Return ((None, [already_defined_text (name m1)
                        (pos (firstModule (group_modules m1)))]), w1) ∧
    ModuleFromName (name m1) namespace w1 = (g1, true).
Proof.
  intros H1 H2 Hn Hfree. eexists. split_and!.
  - by apply NewModule_fresh.
  - rewrite <-Hn. apply (NewModule_taken ctx2 g2 module2 _ m2 g1 m1); simpl; [done| |done].
    by rewrite Hn, lookup_insert_eq.
  - apply ModuleFromName_insert.
Qed.

(** X8: in every world a caller can reach, a registered group prints, by
    [String], the name it is registered under, and two entries of the table
    hold the same group only if they are the same entry. *)
Theorem reachable_groups_keyed_by_name w k1 k2 g1 g2 :
  reachable w →
  modules (registry w) !! k1 = Some g1 →
  modules (registry w) !! k2 = Some g2 →
  ModuleGroup_String (heap w) g1 = Return k1 ∧ (g1 = g2 ↔ k1 = k2).
Proof.
  intros Hreach H1 H2. destruct (reachable_invariants w Hreach) as [Hw _].
  destruct (Hw _ _ H1) as (m1 & Hd1 & Hn1). destruct (Hw _ _ H2) as (m2 & Hd2 & Hn2).
  split.
  - unfold ModuleGroup_String. rewrite (load_Some _ _ _ Hd1). simpl. by rewrite Hn1.
  - split; [intros <-; congruence|intros <-; congruence].
Qed.

(** X9: in a consistent world the result of [AllModules] does not depend
    on the order in which the table is visited. *)
Theorem AllModules_order_independent w visit1 visit2 :
  names_consistent w →
  range_order w visit1 →
  range_order w visit2 →
  ∃ sorted, AllModules visit1 w = Return sorted ∧ AllModules visit2 w = Return sorted.
Proof.
  intros Hw H1 H2.
  destruct (AllModules_consistent w visit1 Hw H1) as (s1 & Hr1 & Hp1 & Hs1).
  destruct (AllModules_consistent w visit2 Hw H2) as (s2 & Hr2 & Hp2 & Hs2).
  exists s1. split; [done|]. rewrite Hr2. f_equal.
  apply (sorted_unique (heap w)); [done..|]. by rewrite Hp1, Hp2.
Qed.

Lemma ModuleFromName_found w k namespace g :
  ModuleFromName k namespace w = (g, true) ↔ modules (registry w) !! k = Some g.
Proof.
  unfold ModuleFromName. destruct (modules (registry w) !! k) as [g'|]; split; intros H;
    try discriminate H; by injection H as ->.
Qed.

(** X10: in a consistent world [AllModules] lists exactly the groups that
    [ModuleFromName] can find, each once, as many as the table has entries,
    in strictly ascending order of name. *)
Theorem AllModules_lists_what_lookup_finds w visit namespace :
  names_consistent w →
  range_order w visit →
  ∃ sorted,
    AllModules visit w = Return sorted ∧
    length sorted = size (modules (registry w)) ∧
    NoDup sorted ∧
    StronglySorted (group_lt (heap w)) sorted ∧
    (∀ g, g ∈ sorted ↔ ∃ k, ModuleFromName k namespace w = (g, true)).
Proof.
  intros Hw Hvisit.
  destruct (AllModules_consistent w visit Hw Hvisit) as (sorted & Hrun & Hperm & Hs).
  exists sorted. split_and!; [done| | |done|].
  - by rewrite Hperm, length_fmap, length_map_to_list.
  - destruct (consistent_range w visit Hw Hvisit) as [_ Hd].
    unfold distinct_names in Hd. apply NoDup_fmap_1 in Hd.
    unfold range_order in Hvisit. by rewrite Hperm, <-Hvisit.
  - intros g. rewrite Hperm, list_elem_of_fmap. split.
    + intros ([k g'] & -> & Hin). exists k. apply ModuleFromName_found.
      by apply elem_of_map_to_list.
    + intros (k & Hk). apply ModuleFromName_found in Hk. exists (k, g).
      split; [done|]. by apply elem_of_map_to_list.
Qed.

Lemma Rename_values A B (g : ModuleGroup) (m : gmap string ModuleGroup) :
  m !! A = Some g → m !! B = None →
  (map_to_list (delete A (<[B := g]> m))).*2 ≡ₚ (map_to_list m).*2.
Proof.
  intros HA HB. assert (A ≠ B) as Hne by (intros ->; congruence).
  apply (Permutation_cons_inv (a := g)).
  change (g :: (map_to_list (delete A (<[B := g]> m))).*2)
    with (((A, g) :: map_to_list (delete A (<[B := g]> m))).*2).
  rewrite map_to_list_delete by (by rewrite lookup_insert_ne).
  by rewrite map_to_list_insert.
Qed.

(** X11: a renaming that succeeds neither adds nor drops a group: the
    enumeration after it is a rearrangement of the enumeration before it. *)
Theorem Rename_keeps_the_groups A B namespace w w' visit visit' :
  names_consistent w →
  Rename A B namespace w = Return ([], w') →
  range_order w visit →
  range_order w' visit' →
  ∃ sorted sorted',
    AllModules visit w = Return sorted ∧
    AllModules visit' w' = Return sorted' ∧
    sorted' ≡ₚ sorted.
Proof.
  intros Hw Hr Hv Hv'.
  pose proof (names_consistent_Rename _ _ _ _ _ _ Hr Hw) as Hw'.
  destruct (AllModules_consistent w visit Hw Hv) as (s & Hrun & Hperm & _).
  destruct (AllModules_consistent w' visit' Hw' Hv') as (s' & Hrun' & Hperm' & _).
  exists s, s'. split_and!; [done..|]. rewrite Hperm, Hperm'.
  destruct (Rename_Return_cases _ _ _ _ _ _ Hr)
    as [(? & ? & _ & _ & [=] & _)|[(_ & _ & [=] & _)|(l & mg & HB & HA & Hl & _ & ->)]].
  destruct (consistent_handle w A _ Hw HA) as (l' & mg' & [= <-] & Hl' & Hn).
  rewrite Hl in Hl'. injection Hl' as <-. simpl. rewrite Hn. by apply Rename_values.
Qed.

(** X12: a fresh registry holds nothing: the table has no value to visit,
    [AllModules] returns the empty list, no name is found or skipped, and a
    missing dependency is reported as undefined. *)
Theorem fresh_registry_is_empty h n namespace depender guess visit :
  range_order (mkWorld h NewSimpleNameInterface) visit →
  visit = [] ∧
  AllModules visit (mkWorld h NewSimpleNameInterface) = Return [] ∧
  ModuleFromName n namespace (mkWorld h NewSimpleNameInterface) = (mkModuleGroup None, false) ∧
  SkippedModuleFromName n namespace (mkWorld h NewSimpleNameInterface) = ([], false) ∧
  MissingDependencyError depender namespace n guess (mkWorld h NewSimpleNameInterface)
    = undefined_text depender n guess.
Proof.
  intros Hv. unfold range_order in Hv. simpl in Hv. rewrite map_to_list_empty in Hv.
  apply Permutation_nil_r in Hv as ->. by split_and!.
Qed.

(** ** Further properties of skip records *)

Lemma step_skip_prefix w w' n :
  step w w' → skipInfos_of w n `prefix_of` skipInfos_of w' n.
Proof.
  unfold skipInfos_of, SkippedModuleFromName.
  intros [w0 l mg Hl|w0 l mg ms Hl|w0 ctx group module r w1 Hr|w0 ctx k info
          |w0 oldName newName namespace errs w1 Hr]; simpl.
  - done.
  - done.
  - destruct (NewModule_Return_cases _ _ _ _ _ _ Hr)
      as (mg & _ & [(_ & _ & ->)|(? & ? & _ & _ & _ & ->)]); done.
  - unfold NewSkippedModule. destruct (String.eqb k "") eqn:Hk; [done|]. simpl.
    destruct (decide (k = n)) as [->|Hne].
    + rewrite lookup_insert_eq. simpl.
      destruct (skippedModules (registry w0) !! n); simpl; [by apply prefix_app_r|].
      apply prefix_nil.
    + by rewrite lookup_insert_ne.
  - destruct (Rename_Return_cases _ _ _ _ _ _ Hr)
      as [(? & ? & _ & _ & _ & ->)|[(_ & _ & _ & ->)|(? & ? & _ & _ & _ & _ & ->)]]; done.
Qed.

(** X13: skip records are only ever added at the end: whatever the caller
    does next, in any number of steps, the records filed under a name remain,
    in their order, the beginning of the records filed under it later. *)
Theorem skip_records_append_only w w' n :
  rtc step w w' → skipInfos_of w n `prefix_of` skipInfos_of w' n.
Proof.
  induction 1 as [w|w w1 w2 Hstep _ IH]; [done|].
  etrans; [by apply step_skip_prefix|done].
Qed.

Lemma reachable_skip_lists w n infos :
  reachable w → skippedModules (registry w) !! n = Some infos → infos ≠ [].
Proof.
  intros Hreach. revert n infos.
  induction Hreach as [|w l mg _ IH Hl|w l mg ms _ IH Hl|w ctx group module r w' _ IH Hr
                       |w ctx k info _ IH|w oldName newName namespace errs w' _ IH Hr];
    intros n infos Hn.
  - simpl in Hn. by rewrite lookup_empty in Hn.
  - by eapply IH.
  - by eapply IH.
  - destruct (NewModule_Return_cases _ _ _ _ _ _ Hr)
      as (mg & _ & [(_ & _ & ->)|(? & ? & _ & _ & _ & ->)]); by eapply IH.
  - unfold NewSkippedModule in Hn. destruct (String.eqb k ""); [by eapply IH|].
    simpl in Hn. destruct (decide (k = n)) as [->|Hne].
    + rewrite lookup_insert_eq in Hn. injection Hn as <-. intros Heq.
      apply (f_equal length) in Heq. rewrite length_app in Heq. simpl in Heq. lia.
    + rewrite lookup_insert_ne in Hn by done. by eapply IH.
  - destruct (Rename_Return_cases _ _ _ _ _ _ Hr)
      as [(? & ? & _ & _ & _ & ->)|[(_ & _ & _ & ->)|(? & ? & _ & _ & _ & _ & ->)]];
      by eapply IH.
Qed.

(** X14: in every world a caller can reach, a name that
    [SkippedModuleFromName] reports as skipped is not the empty name and
    comes with at least one skip record. *)
Theorem skipped_means_recorded w n namespace infos :
  reachable w →
  SkippedModuleFromName n namespace w = (infos, true) →
  n ≠ "" ∧ infos ≠ [].
Proof.
  intros Hreach Hs. unfold SkippedModuleFromName in Hs.
  destruct (skippedModules (registry w) !! n) as [l|] eqn:Hn; [|done].
  injection Hs as <-. split.
  - intros ->. destruct (reachable_invariants w Hreach) as [_ He].
    unfold no_empty_skip in He. congruence.
  - by eapply reachable_skip_lists.
Qed.

(** X15: a run of [NewSkippedModule] calls under one name that is not empty
    files the records in the order of the calls behind those already there,
    leaves the records of every other name alone, and makes the name skipped
    as soon as one call was made. *)
Theorem skip_all_appends_in_order ctx n infos namespace w :
  n ≠ "" →
  skipInfos_of (skip_all ctx n infos w) n = skipInfos_of w n ++ infos ∧
  (∀ k, k ≠ n → skipInfos_of (skip_all ctx n infos w) k = skipInfos_of w k) ∧
  (infos ≠ [] → (SkippedModuleFromName n namespace (skip_all ctx n infos w)).2 = true).
Proof.
  intros Hn. apply String.eqb_neq in Hn. unfold skip_all.
  induction infos as [|info infos IH] using rev_ind.
  - simpl. by rewrite app_nil_r.
  - rewrite foldl_snoc. destruct IH as (IH1 & IH2 & _).
    set (w1 := foldl (λ w info, NewSkippedModule ctx n info w) w infos) in *.
    unfold skipInfos_of, SkippedModuleFromName, NewSkippedModule in *. rewrite Hn. simpl.
    rewrite lookup_insert_eq. simpl. split_and!.
    + rewrite app_assoc, <-IH1. by destruct (skippedModules (registry w1) !! n).
    + intros k Hk. rewrite lookup_insert_ne by done. by apply IH2.
    + done.
Qed.

(** X16: once a name that is not empty has been recorded as skipped, the
    missing-dependency diagnostic for it is the skipped-module message,
    whether or not the name is also registered and whatever suggestions are
    passed; it contains the file name and the reason of the new record. *)
Theorem MissingDependencyError_after_skip ctx n info depender namespace guess w :
  n ≠ "" →
  MissingDependencyError depender namespace n guess (NewSkippedModule ctx n info w)
    = skipped_text depender n
        (filename <$> skipInfos_of w n ++ [info]) (reason <$> skipInfos_of w n ++ [info]) ∧
  mentions (filename info)
    (MissingDependencyError depender namespace n guess (NewSkippedModule ctx n info w)) ∧
  mentions (reason info)
    (MissingDependencyError depender namespace n guess (NewSkippedModule ctx n info w)).
Proof.
  intros Hn. apply String.eqb_neq in Hn.
  assert (MissingDependencyError depender namespace n guess (NewSkippedModule ctx n info w)
    = skipped_text depender n
        (filename <$> skipInfos_of w n ++ [info]) (reason <$> skipInfos_of w n ++ [info])) as ->.
  { unfold MissingDependencyError, SkippedModuleFromName, NewSkippedModule, skipInfos_of,
      SkippedModuleFromName. rewrite Hn. simpl. rewrite lookup_insert_eq.
    by destruct (skippedModules (registry w) !! n). }
  split_and!; [done| |].
  - apply mentions_filesFound. rewrite fmap_app. apply elem_of_app. right. by left.
  - apply mentions_reasons. rewrite fmap_app. apply elem_of_app. right. by left.
Qed.

(** ** Further properties of the enumeration and of names *)

(** X17: a table of at most six entries, a length at which [sort.Slice] is
    the plain insertion sort, in which two live groups share a name and no
    group bears the empty name, makes [AllModules] panic with the
    duplicate-name message for a name that is not empty. *)
Theorem AllModules_panics_on_named_duplicate w visit :
  length visit ≤ 6 →
  all_live (heap w) visit →
  (∀ g, g ∈ visit → name_of (heap w) g ≠ Some "") →
  ¬ distinct_names (heap w) visit →
  ∃ n, n ≠ "" ∧ AllModules visit w = Panicked (PanicMsg (duplicate_text n)).
Proof. intros _. apply AllModules_detects_named_duplicate. Qed.

(** X18: after a renaming the old name is free again: a live group that
    bears it can be registered, and then the old name leads to the new group
    and the new name to the renamed one. *)
Theorem Rename_frees_the_old_name A B namespace ctx module w group group' mg' :
  names_consistent w →
  modules (registry w) !! A = Some group →
  modules (registry w) !! B = None →
  deref (heap w) group' = Some mg' →
  name mg' = A →
  group' ≠ group →
  ∃ w1 w2,
    Rename A B namespace w = Return ([], w1) ∧
    NewModule ctx group' module w1 = Return ((None, []), w2) ∧
    ModuleFromName A namespace w2 = (group', true) ∧
    ModuleFromName B namespace w2 = (group, true).
Proof.
  intros Hw HA HB Hg' Hn' Hne.
  destruct (consistent_handle w A group Hw HA) as (l & mg & -> & Hl & Hn).
  assert (A ≠ B) as HAB by (intros ->; congruence).
  eexists. eexists. split; [by apply (Rename_success A B namespace w l mg)|].
  assert (deref (<[l := mkModuleGroupRecord B (group_modules mg)]> (heap w)) group' = Some mg')
    as Hg1.
  { destruct group' as [[l'|]]; [|done]. unfold deref in *. simpl in *.
    rewrite lookup_insert_ne; [done|]. intros ->. by apply Hne. }
  split_and!.
  - apply (NewModule_fresh ctx group' module _ mg'); simpl; [done|].
    rewrite Hn, Hn'. by rewrite lookup_delete_eq.
  - rewrite <-Hn'. apply ModuleFromName_insert.
  - apply ModuleFromName_found. simpl. rewrite Hn, Hn'.
    by rewrite lookup_insert_ne, lookup_delete_ne, lookup_insert_eq.
Qed.

(** X19: in a consistent world the unique names that [UniqueName] derives
    from the names two different registered groups print are different, and
    the unique name of a registered group, looked up in the namespace that
    [GetNamespace] gives, finds that group. *)
Theorem UniqueName_separates_groups ctx1 ctx2 w k1 k2 g1 g2 :
  names_consistent w →
  modules (registry w) !! k1 = Some g1 →
  modules (registry w) !! k2 = Some g2 →
  g1 ≠ g2 →
  ∃ n1 n2,
    ModuleGroup_String (heap w) g1 = Return n1 ∧
    ModuleGroup_String (heap w) g2 = Return n2 ∧
    UniqueName ctx1 n1 ≠ UniqueName ctx2 n2 ∧
    ModuleFromName (UniqueName ctx1 n1) (GetNamespace ctx1) w = (g1, true).
Proof.
  intros Hw H1 H2 Hne.
  destruct (Hw _ _ H1) as (m1 & Hd1 & Hn1). destruct (Hw _ _ H2) as (m2 & Hd2 & Hn2).
  exists k1, k2. unfold ModuleGroup_String, UniqueName.
  rewrite (load_Some _ _ _ Hd1), (load_Some _ _ _ Hd2). simpl. rewrite Hn1, Hn2.
  split_and!; [done..| |by apply ModuleFromName_found].
  intros Hk. apply Hne. rewrite Hk in H1. rewrite H1 in H2. by injection H2.
Qed.

Lemma step_keeps_invariants w w' :
  step w w' →
  names_consistent w ∧ no_empty_skip w → names_consistent w' ∧ no_empty_skip w'.
Proof.
  intros [w0 l mg Hl|w0 l mg ms Hl|w0 ctx group module r w1 Hr|w0 ctx k info
          |w0 oldName newName namespace errs w1 Hr] [Hn Hs].
  - split; [by apply names_consistent_alloc|done].
  - split; [by apply names_consistent_set_group_modules|done].
  - split; [by eapply names_consistent_NewModule|].
    destruct (NewModule_Return_cases _ _ _ _ _ _ Hr)
      as (mg & _ & [(_ & _ & ->)|(? & ? & _ & _ & _ & ->)]); done.
  - split; [by apply names_consistent_NewSkippedModule|by apply no_empty_skip_NewSkippedModule].
  - split; [by eapply names_consistent_Rename|].
    destruct (Rename_Return_cases _ _ _ _ _ _ Hr)
      as [(? & ? & _ & _ & _ & ->)|[(_ & _ & _ & ->)|(? & ? & _ & _ & _ & _ & ->)]]; done.
Qed.

(** X20: from a consistent world without a skip record under the empty
    name, no number of caller actions (allocating records, replacing module
    collections, [NewModule], [NewSkippedModule], [Rename]) leads to a world
    where a key of the table misses the name of its group or where a record
    is filed under the empty name. *)
Theorem steps_keep_invariants w w' :
  rtc step w w' →
  names_consistent w → no_empty_skip w →
  names_consistent w' ∧ no_empty_skip w'.
Proof.
  induction 1 as [w|w w1 w2 Hstep _ IH]; intros Hn Hs; [done|].
  destruct (step_keeps_invariants w w1 Hstep (conj Hn Hs)) as [Hn1 Hs1]. by apply IH.
Qed.

(** X21: in a consistent world the handle that [ModuleFromName] returns
    prints, by [String], the name that was looked up when the name was found;
    when it was not found the handle holds the nil pointer and [String]
    panics on it. *)
Theorem ModuleFromName_then_String w k namespace g found :
  names_consistent w →
  ModuleFromName k namespace w = (g, found) →
  ModuleGroup_String (heap w) g =
    if found then Return k else Panicked NilPointerDereference.
Proof.
  intros Hw. unfold ModuleFromName.
  destruct (modules (registry w) !! k) as [g'|] eqn:Hk; intros [= <- <-].
  - destruct (Hw _ _ Hk) as (mg & Hd & Hn). unfold ModuleGroup_String.
    rewrite (load_Some _ _ _ Hd). simpl. by rewrite Hn.
  - done.
Qed.

End Registry.

Arguments mkWorld {Position} heap registry.
Arguments heap {Position} w.
Arguments registry {Position} w.
Arguments name {Position} m.
Arguments group_modules {Position} m.
Arguments firstModule {Position} m.
Arguments pos {Position} m.
Arguments deref {Position} h g.
Arguments single {Position} n p.
Arguments example_heap {Position} p.
Arguments example_fresh {Position} p.
Arguments example_world {Position} p.
Arguments example_world' {Position} p p'.
Arguments corrupt_world {Position} p.
Arguments corrupt_world' {Position} p.
Arguments stale_world {Position} p.
Arguments NewModule {Position} Position_String Quote {Module_} ctx group module w.
Arguments NewSkippedModule {Position} ctx name info w.
Arguments ModuleFromName {Position} moduleName namespace w.
Arguments SkippedModuleFromName {Position} moduleName namespace w.
Arguments Rename {Position} Position_String Quote oldName newName namespace w.
Arguments AllModules {Position} Quote visit w.
Arguments names_consistent {Position} w.
Arguments no_empty_skip {Position} w.
Arguments range_order {Position} w visit.
Arguments group_lt {Position} h g1 g2.
Arguments maps_to {Position} w k g.
Arguments registrations {Position} Position_String Quote {Module_} _ _ _.
Arguments already_defined_text {Position} Position_String Quote n p.
Arguments rename_conflict_text {Position} Position_String Quote oldName newName p.

(** ** The theorems at concrete worlds *)

Lemma NewModule_then_ModuleFromName_witness :
  ∃ w', NewModule id plain_quote (namespaceContextImpl "a.bp") h1 tt
          (example_fresh "a.bp:1:1") = Return ((None, []), w') ∧
        ModuleFromName "zeta" None w' = (h1, true).
Proof.
  apply (NewModule_then_ModuleFromName string id plain_quote unit
           (namespaceContextImpl "a.bp") h1 tt None
           (example_fresh "a.bp:1:1") (single "zeta" "a.bp:1:1")); reflexivity.
Defined.

Lemma NewModule_accepts_empty_name_witness :
  ∃ w', NewModule id plain_quote (namespaceContextImpl "b.bp") h5 tt
          (example_world' "a.bp:1:1" "b.bp:7:1") = Return ((None, []), w') ∧
        ModuleFromName "" None w' = (h5, true) ∧
        NewSkippedModule (namespaceContextImpl "b.bp") ""
          (mkSkippedModuleInfo "b.bp" "license") w' = w'.
Proof.
  apply (NewModule_accepts_empty_name string id plain_quote unit
           (namespaceContextImpl "b.bp") h5 tt None (mkSkippedModuleInfo "b.bp" "license")
           (example_world' "a.bp:1:1" "b.bp:7:1") (single "" "b.bp:7:1")); reflexivity.
Defined.

Lemma NewModule_duplicate_rejected_witness :
  ∃ text, NewModule id plain_quote (namespaceContextImpl "b.bp") h4 tt
            (example_world' "a.bp:1:1" "b.bp:7:1")
          = Return ((None, [text]), example_world' "a.bp:1:1" "b.bp:7:1") ∧
          text = already_defined_text id plain_quote "alpha" "a.bp:1:1" ∧
          mentions "a.bp:1:1" text.
Proof.
  apply (NewModule_duplicate_rejected string id plain_quote unit
           (namespaceContextImpl "b.bp") h4 tt
           (example_world' "a.bp:1:1" "b.bp:7:1")
           (single "alpha" "b.bp:7:1") h2 (single "alpha" "a.bp:1:1")); reflexivity.
Defined.

Lemma Rename_to_itself_rejected_witness :
  ∃ text, Rename id plain_quote "mu" "mu" None (example_world "a.bp:1:1")
          = Return ([text], example_world "a.bp:1:1") ∧
          text = rename_conflict_text id plain_quote "mu" "mu" "a.bp:1:1" ∧
          mentions "a.bp:1:1" text.
Proof.
  apply (Rename_to_itself_rejected string id plain_quote "mu" None
           (example_world "a.bp:1:1") h3 (single "mu" "a.bp:1:1")); reflexivity.
Defined.

Lemma Rename_failure_changes_nothing_witness :
  let w := example_world "a.bp:1:1" in
  let errs := [rename_missing_text plain_quote "nowhere" "beta"] in
  Rename id plain_quote "nowhere" "beta" None w = Return (errs, w) ∧
  errs ≠ [] ∧
  w = w ∧
  ((∃ existingGroup existing,
      modules (registry w) !! "beta" = Some existingGroup ∧
      deref (heap w) existingGroup = Some existing ∧
      errs = [rename_conflict_text id plain_quote "nowhere" "beta"
                (pos (firstModule (group_modules existing)))] ∧
      mentions (pos (firstModule (group_modules existing)))
        (rename_conflict_text id plain_quote "nowhere" "beta"
           (pos (firstModule (group_modules existing)))))
   ∨ (modules (registry w) !! "beta" = None ∧
      modules (registry w) !! "nowhere" = None ∧
      errs = [rename_missing_text plain_quote "nowhere" "beta"])).
Proof.
  intros w errs. split; [reflexivity|]. split; [discriminate|].
  apply (Rename_failure_changes_nothing string id plain_quote "nowhere" "beta" None
           w errs w); [reflexivity|discriminate].
Defined.

Lemma example_world_consistent : names_consistent (example_world "a.bp:1:1").
Proof.
  intros k g Hk. unfold example_world in Hk. simpl in Hk.
  apply lookup_insert_Some in Hk as [[<- <-]|[_ Hk]];
    [by exists (single "zeta" "a.bp:1:1")|].
  apply lookup_insert_Some in Hk as [[<- <-]|[_ Hk]];
    [by exists (single "alpha" "a.bp:1:1")|].
  apply lookup_insert_Some in Hk as [[<- <-]|[_ Hk]];
    [by exists (single "mu" "a.bp:1:1")|].
  by rewrite lookup_empty in Hk.
Defined.

Lemma Rename_moves_group_witness :
  ∃ w', Rename id plain_quote "zeta" "beta" None (example_world "a.bp:1:1") = Return ([], w') ∧
        ModuleFromName "zeta" None w' = (mkModuleGroup None, false) ∧
        ModuleFromName "beta" None w' = (h1, true) ∧
        deref (heap w') h1 = Some (single "beta" "a.bp:1:1").
Proof.
  destruct (Rename_moves_group string id plain_quote "zeta" "beta" None
              (example_world "a.bp:1:1") h1 example_world_consistent eq_refl eq_refl)
    as (w' & Hrun & HA & HB & (mg & mg' & Hmg & Hmg' & Hname & Hmods) & _).
  exists w'. split_and!; [done..|].
  rewrite Hmg'. f_equal. destruct mg'. simpl in *. subst.
  by injection Hmg as <-.
Defined.

Lemma example_registrations :
  registrations id plain_quote (Module_ := unit) (example_fresh "a.bp:1:1")
    [h1; h2; h3] (example_world "a.bp:1:1").
Proof.
  eapply (registrations_cons _ _ _ _ _ (namespaceContextImpl "a.bp") _ tt); [reflexivity|].
  eapply (registrations_cons _ _ _ _ _ (namespaceContextImpl "a.bp") _ tt); [reflexivity|].
  eapply (registrations_cons _ _ _ _ _ (namespaceContextImpl "a.bp") _ tt); [reflexivity|].
  apply registrations_nil.
Defined.

Lemma example_range_order : range_order (example_world "a.bp:1:1") [h3; h1; h2].
Proof. unfold range_order. vm_compute. apply perm_skip, perm_swap. Defined.

Lemma AllModules_sorted_after_registrations_witness :
  ∃ sorted,
    AllModules plain_quote [h3; h1; h2] (example_world "a.bp:1:1") = Return sorted ∧
    sorted ≡ₚ [h1; h2; h3] ∧
    StronglySorted (group_lt (heap (example_world "a.bp:1:1"))) sorted ∧
    (∀ other, other ≡ₚ [h1; h2; h3] →
       StronglySorted (group_lt (heap (example_world "a.bp:1:1"))) other → other = sorted).
Proof.
  apply (AllModules_sorted_after_registrations string id plain_quote unit
           (example_heap "a.bp:1:1") [h1; h2; h3] (example_world "a.bp:1:1") [h3; h1; h2]
           example_registrations example_range_order).
Defined.

(** Registered as "zeta", "alpha", "mu", the groups are enumerated as
    "alpha", "mu", "zeta". *)
Example AllModules_zeta_alpha_mu :
  AllModules plain_quote [h1; h2; h3] (example_world "a.bp:1:1") = Return [h2; h3; h1] ∧
  AllModules plain_quote [h3; h1; h2] (example_world "a.bp:1:1") = Return [h2; h3; h1].
Proof. split; reflexivity. Qed.

Lemma NewSkippedModule_appends_witness :
  let ctx := namespaceContextImpl "fileA.bp" in
  let license := mkSkippedModuleInfo "fileA.bp" "license" in
  let platform := mkSkippedModuleInfo "fileB.bp" "platform mismatch" in
  let w := NewSkippedModule ctx "b" license (example_world "a.bp:1:1") in
  no_empty_skip w ∧
  SkippedModuleFromName "b" None (NewSkippedModule ctx "b" platform w)
    = ([license; platform], true) ∧
  SkippedModuleFromName "" None (NewSkippedModule ctx "" platform w) = ([], false).
Proof.
  intros ctx license platform w. split; [reflexivity|]. split.
  - destruct (NewSkippedModule_appends string ctx "b" platform None w eq_refl)
      as (_ & _ & _ & H). exact H.
  - destruct (NewSkippedModule_appends string ctx "" platform None w eq_refl)
      as (_ & _ & _ & _ & H). exact H.
Defined.

(** The diagnostics of the three cases. *)
Example MissingDependencyError_examples :
  let ctx := namespaceContextImpl "fileA.bp" in
  let w := NewSkippedModule ctx "b" (mkSkippedModuleInfo "fileB.bp" "platform mismatch")
             (NewSkippedModule ctx "b" (mkSkippedModuleInfo "fileA.bp" "license")
                (example_world "a.bp:1:1")) in
  MissingDependencyError string plain_quote "a" None "b" [] w
    = "module " +:+ plain_quote "a" +:+ " depends on skipped module " +:+ plain_quote "b" +:+
      "; " +:+ plain_quote "b" +:+ " was defined in files(s) [fileA.bp, fileB.bp]" +:+
      ", but was skipped for reason(s) [license; platform mismatch]" ∧
  MissingDependencyError string plain_quote "a" None "c" [] w
    = plain_quote "a" +:+ " depends on undefined module " +:+ plain_quote "c" +:+ "." ∧
  MissingDependencyError string plain_quote "a" None "c" ["alpha"; "alpah"] w
    = plain_quote "a" +:+ " depends on undefined module " +:+ plain_quote "c" +:+
      ". Did you mean [" +:+ plain_quote "alpha" +:+ " " +:+ plain_quote "alpah" +:+ "]?".
Proof. split_and!; reflexivity. Qed.

(** C6: the duplicate check of [AllModules] misses the empty name. In a
    table with two entries whose live records both bear the empty name, the
    enumeration returns both groups, in either order of visit, although the
    same table with the shared name "x" makes it panic: the variable
    [duplicateName] holds the empty string both when no duplicate was seen
    and when the duplicated name is empty. *)
Theorem AllModules_misses_empty_duplicate :
  let w := corrupt_world "a.bp:1:1" in
  (maps_to w "a" h1 ∧ maps_to w "b" h2 ∧
   name <$> deref (heap w) h1 = Some "" ∧ name <$> deref (heap w) h2 = Some "") ∧
  (range_order w [h1; h2] ∧ AllModules plain_quote [h1; h2] w = Return [h1; h2]) ∧
  (range_order w [h2; h1] ∧ AllModules plain_quote [h2; h1] w = Return [h2; h1]) ∧
  AllModules plain_quote [h1; h2] (corrupt_world' "a.bp:1:1")
    = Panicked (PanicMsg (duplicate_text plain_quote "x")).
Proof.
  intros w. split_and!; try reflexivity.
  - unfold range_order. vm_compute. reflexivity.
  - unfold range_order. vm_compute. apply perm_swap.
Qed.

(** Why the table has to be consistent for a renaming to remove the old
    key: [Rename] deletes the key it reads from the record, so on a table
    whose entry "a" leads to a record named "c" the old key survives. No
    sequence of calls on a fresh registry builds such a table. *)
Remark Rename_on_inconsistent_table :
  let w := stale_world "a.bp:1:1" in
  maps_to w "a" h1 ∧ name <$> deref (heap w) h1 = Some "c" ∧
  ∃ w', Rename id plain_quote "a" "b" None w = Return ([], w') ∧
        maps_to w' "a" h1 ∧ maps_to w' "b" h1.
Proof.
  intros w. split; [reflexivity|]. split; [reflexivity|].
  eexists. split; [reflexivity|]. split; reflexivity.
Qed.

Arguments reachable {Position} Position_String Quote {Module_} w.
Arguments step {Position} Position_String Quote {Module_} w w'.
Arguments ModuleGroup_String {Position} h g.
Arguments skipInfos_of {Position} w n.
Arguments skip_all {Position} ctx n infos w.
Arguments all_live {Position} h groups.
Arguments distinct_names {Position} h groups.
Arguments name_of {Position} h g.
Arguments set_heap {Position} h w.

(** ** The further properties at concrete worlds *)

Lemma example_world'_consistent : names_consistent (example_world' "a.bp:1:1" "b.bp:7:1").
Proof.
  intros k g Hk. unfold example_world', example_world in Hk. simpl in Hk.
  apply lookup_insert_Some in Hk as [[<- <-]|[_ Hk]];
    [by exists (single "zeta" "a.bp:1:1")|].
  apply lookup_insert_Some in Hk as [[<- <-]|[_ Hk]];
    [by exists (single "alpha" "a.bp:1:1")|].
  apply lookup_insert_Some in Hk as [[<- <-]|[_ Hk]];
    [by exists (single "mu" "a.bp:1:1")|].
  by rewrite lookup_empty in Hk.
Defined.

Lemma example_world_reachable :
  reachable id plain_quote (Module_ := unit) (example_world "a.bp:1:1").
Proof.
  pose proof (reachable_new string id plain_quote unit) as H.
  apply (reachable_alloc _ _ _ _ _ 3%positive (single "mu" "a.bp:1:1")) in H; [|reflexivity].
  apply (reachable_alloc _ _ _ _ _ 2%positive (single "alpha" "a.bp:1:1")) in H; [|reflexivity].
  apply (reachable_alloc _ _ _ _ _ 1%positive (single "zeta" "a.bp:1:1")) in H; [|reflexivity].
  eapply (reachable_NewModule _ _ _ _ _ (namespaceContextImpl "a.bp") h1 tt) in H; [|reflexivity].
  eapply (reachable_NewModule _ _ _ _ _ (namespaceContextImpl "a.bp") h2 tt) in H; [|reflexivity].
  eapply (reachable_NewModule _ _ _ _ _ (namespaceContextImpl "a.bp") h3 tt) in H; [|reflexivity].
  exact H.
Defined.

Lemma example_range_order' : range_order (example_world "a.bp:1:1") [h1; h2; h3].
Proof. unfold range_order. refine (bool_decide_unpack _ _). vm_compute. exact I. Defined.

Lemma Rename_there_and_back_witness :
  ∃ w1, Rename id plain_quote "zeta" "beta" None (example_world "a.bp:1:1") = Return ([], w1) ∧
        Rename id plain_quote "beta" "zeta" None w1 = Return ([], example_world "a.bp:1:1").
Proof.
  apply (Rename_there_and_back string id plain_quote "zeta" "beta" None
           (example_world "a.bp:1:1") h1 example_world_consistent eq_refl eq_refl).
Defined.

Lemma Rename_twice_is_once_witness :
  ∃ w1 w2,
    Rename id plain_quote "zeta" "beta" None (example_world "a.bp:1:1") = Return ([], w1) ∧
    Rename id plain_quote "beta" "gamma" None w1 = Return ([], w2) ∧
    Rename id plain_quote "zeta" "gamma" None (example_world "a.bp:1:1") = Return ([], w2).
Proof.
  apply (Rename_twice_is_once string id plain_quote "zeta" "beta" "gamma" None
           (example_world "a.bp:1:1") h1 example_world_consistent eq_refl eq_refl eq_refl).
  discriminate.
Defined.

Lemma Rename_leaves_the_rest_witness :
  ∃ w', Rename id plain_quote "zeta" "beta" None (example_world "a.bp:1:1") = Return ([], w') ∧
        modules (registry w') !! "mu" = Some h3 ∧
        deref (heap w') h3 = Some (single "mu" "a.bp:1:1") ∧
        deref (heap w') h1 = Some (single "beta" "a.bp:1:1").
Proof.
  eexists. split; [reflexivity|].
  destruct (Rename_leaves_the_rest string id plain_quote "zeta" "beta" None
              (example_world "a.bp:1:1") _ example_world_consistent eq_refl)
    as (group & mg & HA & Hd & Hd' & Hk & Hg & _).
  injection HA as <-. injection Hd as <-. split_and!.
  - rewrite Hk; [reflexivity|discriminate..].
  - rewrite Hg; [reflexivity|discriminate].
  - exact Hd'.
Defined.

Lemma Rename_returns_witness :
  ∃ errs w', Rename id plain_quote "nowhere" "mu" None (example_world "a.bp:1:1")
             = Return (errs, w') ∧ length errs ≤ 1 ∧ errs ≠ [].
Proof.
  destruct (Rename_returns string id plain_quote "nowhere" "mu" None
              (example_world "a.bp:1:1") example_world_consistent)
    as (errs & w' & Hr & Hlen & Hiff).
  exists errs, w'. split_and!; [done..|].
  intros He. by destruct (proj1 Hiff He) as [_ ?].
Defined.

Lemma NewModule_outcome_witness :
  ∃ errs w',
    NewModule id plain_quote (namespaceContextImpl "b.bp") h4 tt
      (example_world' "a.bp:1:1" "b.bp:7:1") = Return ((None, errs), w') ∧
    errs ≠ [] ∧
    size (modules (registry w')) = size (modules (registry (example_world' "a.bp:1:1" "b.bp:7:1"))).
Proof.
  destruct (NewModule_outcome string id plain_quote unit (namespaceContextImpl "b.bp") h4 tt
              (example_world' "a.bp:1:1" "b.bp:7:1") (single "alpha" "b.bp:7:1")
              example_world'_consistent eq_refl)
    as (errs & w' & Hr & _ & Hiff & _ & _ & _ & Hsize).
  exists errs, w'. assert (errs ≠ []) as Hne.
  { intros He. by apply Hiff in He. }
  split_and!; [done..|]. rewrite Hsize. rewrite decide_False by done. lia.
Defined.

Lemma NewModule_returns_iff_live_witness :
  NewModule id plain_quote (namespaceContextImpl "b.bp") (mkModuleGroup None) tt
    (example_world "a.bp:1:1") = Panicked NilPointerDereference.
Proof.
  apply (NewModule_returns_iff_live string id plain_quote unit (namespaceContextImpl "b.bp")
           (mkModuleGroup None) tt (example_world "a.bp:1:1") example_world_consistent).
  reflexivity.
Defined.

Lemma NewModule_first_wins_witness :
  let w := mkWorld (heap (example_world' "a.bp:1:1" "b.bp:7:1")) NewSimpleNameInterface in
  ∃ w1,
    NewModule id plain_quote (namespaceContextImpl "a.bp") h2 tt w = Return ((None, []), w1) ∧
    NewModule id plain_quote (namespaceContextImpl "b.bp") h4 tt w1 =
      Return ((None, [already_defined_text id plain_quote "alpha" "a.bp:1:1"]), w1) ∧
    ModuleFromName "alpha" None w1 = (h2, true).
Proof.
  intros w.
  apply (NewModule_first_wins string id plain_quote unit (namespaceContextImpl "a.bp")
           (namespaceContextImpl "b.bp") h2 h4 tt tt None w
           (single "alpha" "a.bp:1:1") (single "alpha" "b.bp:7:1")); reflexivity.
Defined.

Lemma reachable_groups_keyed_by_name_witness :
  ModuleGroup_String (heap (example_world "a.bp:1:1")) h1 = Return "zeta" ∧
  (h1 = h3 ↔ "zeta" = "mu").
Proof.
  apply (reachable_groups_keyed_by_name string id plain_quote unit
           (example_world "a.bp:1:1") "zeta" "mu" h1 h3 example_world_reachable eq_refl eq_refl).
Defined.

Lemma AllModules_order_independent_witness :
  ∃ sorted,
    AllModules plain_quote [h3; h1; h2] (example_world "a.bp:1:1") = Return sorted ∧
    AllModules plain_quote [h1; h2; h3] (example_world "a.bp:1:1") = Return sorted.
Proof.
  apply (AllModules_order_independent string plain_quote (example_world "a.bp:1:1")
           [h3; h1; h2] [h1; h2; h3] example_world_consistent
           example_range_order example_range_order').
Defined.

Lemma AllModules_lists_what_lookup_finds_witness :
  ∃ sorted,
    AllModules plain_quote [h1; h2; h3] (example_world "a.bp:1:1") = Return sorted ∧
    length sorted = 3 ∧ h3 ∈ sorted.
Proof.
  destruct (AllModules_lists_what_lookup_finds string plain_quote (example_world "a.bp:1:1")
              [h1; h2; h3] None example_world_consistent example_range_order')
    as (sorted & Hrun & Hlen & _ & _ & Hin).
  exists sorted. split_and!; [done|by rewrite Hlen|].
  apply Hin. by exists "mu".
Defined.

Lemma Rename_keeps_the_groups_witness :
  let w := example_world "a.bp:1:1" in
  let w' := match Rename id plain_quote "zeta" "beta" None w with
            | Return (_, w') => w'
            | Panicked _ => w
            end in
  Rename id plain_quote "zeta" "beta" None w = Return ([], w') ∧
  ∃ sorted sorted',
    AllModules plain_quote [h1; h2; h3] w = Return sorted ∧
    AllModules plain_quote [h3; h2; h1] w' = Return sorted' ∧
    sorted' ≡ₚ sorted.
Proof.
  intros w w'. split; [reflexivity|].
  apply (Rename_keeps_the_groups string id plain_quote "zeta" "beta" None w w'
           [h1; h2; h3] [h3; h2; h1] example_world_consistent eq_refl example_range_order').
  unfold range_order. refine (bool_decide_unpack _ _). vm_compute. exact I.
Defined.

Lemma fresh_registry_is_empty_witness :
  AllModules plain_quote [] (example_fresh "a.bp:1:1") = Return [] ∧
  ModuleFromName "zeta" None (example_fresh "a.bp:1:1") = (mkModuleGroup None, false).
Proof.
  destruct (fresh_registry_is_empty string plain_quote (example_heap "a.bp:1:1")
              "zeta" None "a" [] [] (Permutation_refl _))
    as (_ & Hall & Hfind & _).
  by split.
Defined.

Lemma skip_records_append_only_witness :
  let ctx := namespaceContextImpl "fileA.bp" in
  let license := mkSkippedModuleInfo "fileA.bp" "license" in
  let platform := mkSkippedModuleInfo "fileB.bp" "platform mismatch" in
  let w := NewSkippedModule ctx "b" license (example_world "a.bp:1:1") in
  let w1 := match Rename id plain_quote "zeta" "beta" None w with
            | Return (_, w1) => w1
            | Panicked _ => w
            end in
  let w2 := NewSkippedModule ctx "b" platform w1 in
  skipInfos_of w "b" = [license] ∧ skipInfos_of w2 "b" = [license; platform] ∧
  skipInfos_of w "b" `prefix_of` skipInfos_of w2 "b".
Proof.
  intros ctx license platform w w1 w2. split; [reflexivity|]. split; [reflexivity|].
  apply (skip_records_append_only string id plain_quote unit w w2 "b").
  apply (rtc_l _ w w1 w2).
  - apply (step_Rename _ _ _ _ w "zeta" "beta" None [] w1). reflexivity.
  - apply rtc_once. apply step_NewSkippedModule.
Defined.

Lemma skipped_means_recorded_witness :
  let w := NewSkippedModule (namespaceContextImpl "fileA.bp") "b"
             (mkSkippedModuleInfo "fileA.bp" "license") (example_world "a.bp:1:1") in
  "b" ≠ "" ∧ [mkSkippedModuleInfo "fileA.bp" "license"] ≠ [].
Proof.
  intros w.
  apply (skipped_means_recorded string id plain_quote unit w "b" None
           [mkSkippedModuleInfo "fileA.bp" "license"]).
  - apply reachable_NewSkippedModule, example_world_reachable.
  - reflexivity.
Defined.

Lemma skip_all_appends_in_order_witness :
  let ctx := namespaceContextImpl "fileA.bp" in
  let license := mkSkippedModuleInfo "fileA.bp" "license" in
  let platform := mkSkippedModuleInfo "fileB.bp" "platform mismatch" in
  skipInfos_of (skip_all ctx "b" [license; platform] (example_world "a.bp:1:1")) "b"
    = [license; platform].
Proof.
  intros ctx license platform.
  destruct (skip_all_appends_in_order string ctx "b" [license; platform] None
              (example_world "a.bp:1:1")) as (H & _); [discriminate|].
  exact H.
Defined.

Lemma MissingDependencyError_after_skip_witness :
  let w := NewSkippedModule (namespaceContextImpl "fileA.bp") "mu"
             (mkSkippedModuleInfo "fileA.bp" "license") (example_world "a.bp:1:1") in
  ModuleFromName "mu" None w = (h3, true) ∧
  mentions "fileA.bp" (MissingDependencyError string plain_quote "a" None "mu" ["mud"] w) ∧
  mentions "license" (MissingDependencyError string plain_quote "a" None "mu" ["mud"] w).
Proof.
  intros w. split; [reflexivity|].
  destruct (MissingDependencyError_after_skip string plain_quote
              (namespaceContextImpl "fileA.bp") "mu" (mkSkippedModuleInfo "fileA.bp" "license")
              "a" None ["mud"] (example_world "a.bp:1:1")) as (_ & Hf & Hr); [discriminate|].
  by split.
Defined.

Lemma AllModules_panics_on_named_duplicate_witness :
  ∃ n, n ≠ "" ∧
       AllModules plain_quote [h1; h2] (corrupt_world' "a.bp:1:1")
       = Panicked (PanicMsg (duplicate_text plain_quote n)).
Proof.
  apply (AllModules_panics_on_named_duplicate string plain_quote
           (corrupt_world' "a.bp:1:1") [h1; h2]).
  - simpl. lia.
  - repeat constructor; eexists; reflexivity.
  - intros g Hg. apply elem_of_cons in Hg as [->|Hg]; [discriminate|].
    apply elem_of_cons in Hg as [->|Hg]; [discriminate|]. by apply elem_of_nil in Hg.
  - intros Hd. apply NoDup_cons in Hd as [Hd _]. apply Hd. by left.
Defined.

Lemma Rename_frees_the_old_name_witness :
  ∃ w1 w2,
    Rename id plain_quote "alpha" "beta" None (example_world' "a.bp:1:1" "b.bp:7:1")
      = Return ([], w1) ∧
    NewModule id plain_quote (namespaceContextImpl "b.bp") h4 tt w1 = Return ((None, []), w2) ∧
    ModuleFromName "alpha" None w2 = (h4, true) ∧
    ModuleFromName "beta" None w2 = (h2, true).
Proof.
  apply (Rename_frees_the_old_name string id plain_quote unit "alpha" "beta" None
           (namespaceContextImpl "b.bp") tt (example_world' "a.bp:1:1" "b.bp:7:1")
           h2 h4 (single "alpha" "b.bp:7:1") example_world'_consistent
           eq_refl eq_refl eq_refl eq_refl).
  discriminate.
Defined.

Lemma UniqueName_separates_groups_witness :
  ∃ n1 n2,
    ModuleGroup_String (heap (example_world "a.bp:1:1")) h1 = Return n1 ∧
    ModuleGroup_String (heap (example_world "a.bp:1:1")) h3 = Return n2 ∧
    UniqueName (namespaceContextImpl "a.bp") n1 ≠ UniqueName (namespaceContextImpl "b.bp") n2 ∧
    ModuleFromName (UniqueName (namespaceContextImpl "a.bp") n1)
      (GetNamespace (namespaceContextImpl "a.bp")) (example_world "a.bp:1:1") = (h1, true).
Proof.
  apply (UniqueName_separates_groups string (namespaceContextImpl "a.bp")
           (namespaceContextImpl "b.bp") (example_world "a.bp:1:1") "zeta" "mu" h1 h3
           example_world_consistent eq_refl eq_refl).
  discriminate.
Defined.

Lemma steps_keep_invariants_witness :
  let w := example_world "a.bp:1:1" in
  let w1 := match Rename id plain_quote "zeta" "beta" None w with
            | Return (_, w1) => w1
            | Panicked _ => w
            end in
  let w2 := NewSkippedModule (namespaceContextImpl "fileA.bp") "b"
              (mkSkippedModuleInfo "fileA.bp" "license") w1 in
  names_consistent w2 ∧ no_empty_skip w2.
Proof.
  intros w w1 w2.
  apply (steps_keep_invariants string id plain_quote unit w w2).
  - apply (rtc_l _ w w1 w2).
    + apply (step_Rename _ _ _ _ w "zeta" "beta" None [] w1). reflexivity.
    + apply rtc_once. apply step_NewSkippedModule.
  - exact example_world_consistent.
  - reflexivity.
Defined.

Lemma ModuleFromName_then_String_witness :
  ModuleGroup_String (heap (example_world "a.bp:1:1"))
    (ModuleFromName "mu" None (example_world "a.bp:1:1")).1 = Return "mu" ∧
  ModuleGroup_String (heap (example_world "a.bp:1:1"))
    (ModuleFromName "nowhere" None (example_world "a.bp:1:1")).1
    = Panicked NilPointerDereference.
Proof.
  split.
  - apply (ModuleFromName_then_String string (example_world "a.bp:1:1") "mu" None h3 true
             example_world_consistent eq_refl).
  - apply (ModuleFromName_then_String string (example_world "a.bp:1:1") "nowhere" None
             (mkModuleGroup None) false example_world_consistent eq_refl).
Defined.
